(** * Snake game (src/snake_game.py): the game-state engine

    A shallow embedding of the classes [Snake] and [Apple], of
    [handle_keys] and of one iteration of the loop of [main], followed by
    the properties of the engine: wrap-around movement, direction
    buffering, self-collision, growth, speed and food placement.

    Coordinates are the pixel coordinates the program stores (multiples of
    [GRID_SIZE]); the grid cell of a pixel position is its quotient by
    [GRID_SIZE].  Python integers are [Z], with [//] and [%] as [Z.div] and
    [Z.modulo] (both round towards minus infinity, the result of [%] has
    the sign of the divisor). *)

From Stdlib Require Import ZArith List Bool Lia.
Import ListNotations.
Local Open Scope Z_scope.

(** ** Constants (lines 13-42) *)

Definition SCREEN_WIDTH : Z := 640.
Definition SCREEN_HEIGHT : Z := 480.
Definition GRID_SIZE : Z := 20.
Definition GRID_WIDTH : Z := SCREEN_WIDTH / GRID_SIZE.
Definition GRID_HEIGHT : Z := SCREEN_HEIGHT / GRID_SIZE.

(** A position and a direction are both [Tuple[int, int]]. *)
Definition Cell : Type := (Z * Z)%type.
Definition Dir : Type := (Z * Z)%type.

Definition UP : Dir := (0, -1).
Definition DOWN : Dir := (0, 1).
Definition LEFT : Dir := (-1, 0).
Definition RIGHT : Dir := (1, 0).

Definition SPEED : Z := 20.

(** [==] on tuples of two integers. *)
Definition tuple_eqb (a b : Z * Z) : bool :=
  (fst a =? fst b) && (snd a =? snd b).

(** [c in l] on a list of tuples. *)
Definition inb (c : Cell) (l : list Cell) : bool :=
  existsb (tuple_eqb c) l.

(** [l.pop()] on a non-empty list: the list without its last element, and
    that element.  On the empty list Python raises; [None] stands for
    that. *)
Fixpoint pop (l : list Cell) : option (list Cell * Cell) :=
  match l with
  | [] => None
  | x :: r =>
      match pop r with
      | None => Some ([], x)
      | Some (r', y) => Some (x :: r', y)
      end
  end.

(** ** Outcomes of a call

    A call returns a value, raises, or is still inside its loop when the
    random tape given to it ends ([Looping]): a call that is [Looping] on
    every tape never finishes. *)

Inductive Exn : Type := IndexError.

Inductive Result (A : Type) : Type :=
| Return (a : A)
| Raise (e : Exn)
| Looping.

Arguments Return {A} a.
Arguments Raise {A} e.
Arguments Looping {A}.

(** ** class Snake (lines 74-140) *)

Module Snake.

(** The attributes of a [Snake].  [length] starts at 1 and is only ever
    assigned 1 or incremented, so it is a natural number. *)
Record t : Type := mk {
  position : Cell;
  speed : Z;
  paused : bool;
  game_over : bool;
  direction : Dir;
  next_direction : option Dir;
  length : nat;
  positions : list Cell;
  last : option Cell
}.

(** [Snake.__init__] *)
Definition init : t :=
  let position := (SCREEN_WIDTH / 2, SCREEN_HEIGHT / 2) in
  {| position := position;
     speed := SPEED;
     paused := false;
     game_over := false;
     direction := RIGHT;
     next_direction := None;
     length := 1;
     positions := [position];
     last := None |}.

(** [Snake.update_direction]: a tuple of two integers is truthy, [None]
    is not. *)
Definition update_direction (self : t) : t :=
  match next_direction self with
  | Some d =>
      {| position := position self;
         speed := speed self;
         paused := paused self;
         game_over := game_over self;
         direction := d;
         next_direction := None;
         length := length self;
         positions := positions self;
         last := last self |}
  | None => self
  end.

(** [Snake.is_game_over]: [positions[2:]] is [skipn 2]. *)
Definition is_game_over (self : t) (next_position : Cell) : t :=
  if inb next_position (skipn 2 (positions self)) then
    {| position := position self;
       speed := speed self;
       paused := paused self;
       game_over := true;
       direction := direction self;
       next_direction := next_direction self;
       length := length self;
       positions := positions self;
       last := last self |}
  else self.

(** [Snake.move]: commits the buffered direction and returns the next
    position; the snake itself does not move yet. *)
Definition move (self : t) : t * Cell :=
  let self := update_direction self in
  let '(x, y) := position self in
  let '(dx, dy) := direction self in
  let new_x := (x + dx * GRID_SIZE) mod SCREEN_WIDTH in
  let new_y := (y + dy * GRID_SIZE) mod SCREEN_HEIGHT in
  (self, (new_x, new_y)).

(** [Snake.insert_next_position] *)
Definition insert_next_position (self : t) (next_position : Cell) : t :=
  {| position := next_position;
     speed := speed self;
     paused := paused self;
     game_over := game_over self;
     direction := direction self;
     next_direction := next_direction self;
     length := length self;
     positions := next_position :: positions self;
     last := last self |}.

(** [Snake.del_last_segment].  [len(self.positions) > self.length] makes
    the list non-empty, so [pop] cannot raise there. *)
Definition del_last_segment (self : t) : t :=
  if (length self <? List.length (positions self))%nat then
    match pop (positions self) with
    | Some (rest, c) =>
        {| position := position self;
           speed := speed self;
           paused := paused self;
           game_over := game_over self;
           direction := direction self;
           next_direction := next_direction self;
           length := length self;
           positions := rest;
           last := Some c |}
    | None => self
    end
  else self.

(** [Snake.reset] *)
Definition reset (self : t) : t :=
  {| position := position self;
     speed := speed self;
     paused := paused self;
     game_over := game_over self;
     direction := RIGHT;
     next_direction := next_direction self;
     length := 1;
     positions := [position self];
     last := None |}.

(** [Snake.get_head_position]: [positions[0]] raises on an empty list. *)
Definition get_head_position (self : t) : Result Cell :=
  match positions self with
  | c :: _ => Return c
  | [] => Raise IndexError
  end.

(** [Snake.get_length] *)
Definition get_length (self : t) : nat := List.length (positions self).

End Snake.

(** ** class Apple (lines 148-170) *)

(** [random.randint(a, b)]: an integer of [a..b], here computed from one
    number of the random tape. *)
Definition randint (a b r : Z) : Z := a + r mod (b - a + 1).

Module Apple.

(** [Apple.generate_new_position].  [snake_positions] is the content of
    the list that [self.snake_positions] refers to; every turn of the
    [while True] loop takes two numbers from the tape. *)
Fixpoint generate_new_position (snake_positions : list Cell)
         (tape : list Z) : Result Cell :=
  match tape with
  | rx :: ry :: tape' =>
      let x := randint 0 (GRID_WIDTH - 1) rx in
      let y := randint 0 (GRID_HEIGHT - 1) ry in
      let new_position := (x * GRID_SIZE, y * GRID_SIZE) in
      if negb (inb new_position snake_positions) then Return new_position
      else generate_new_position snake_positions tape'
  | _ => Looping
  end.

End Apple.

(** ** handle_keys (lines 179-203) *)

Inductive Key : Type := K_UP | K_DOWN | K_LEFT | K_RIGHT | K_SPACE | K_other.

Inductive Event : Type := QUIT | KEYDOWN (key : Key) | other_event.

Definition direction_mapping (key : Key) : option Dir :=
  match key with
  | K_UP => Some UP
  | K_DOWN => Some DOWN
  | K_LEFT => Some LEFT
  | K_RIGHT => Some RIGHT
  | _ => None
  end.

(** The condition of lines 196-201 for a key that maps to [new_direction]. *)
Definition turn_allowed (direction new_direction : Dir) : bool :=
  (tuple_eqb direction UP && negb (tuple_eqb new_direction DOWN))
  || (tuple_eqb direction DOWN && negb (tuple_eqb new_direction UP))
  || (tuple_eqb direction LEFT && negb (tuple_eqb new_direction RIGHT))
  || (tuple_eqb direction RIGHT && negb (tuple_eqb new_direction LEFT)).

(** The branch of the loop for one [KEYDOWN] event. *)
Definition handle_keydown (snake : Snake.t) (key : Key) : Snake.t :=
  match key with
  | K_SPACE =>
      {| Snake.position := Snake.position snake;
         Snake.speed := Snake.speed snake;
         Snake.paused := negb (Snake.paused snake);
         Snake.game_over := Snake.game_over snake;
         Snake.direction := Snake.direction snake;
         Snake.next_direction := Snake.next_direction snake;
         Snake.length := Snake.length snake;
         Snake.positions := Snake.positions snake;
         Snake.last := Snake.last snake |}
  | _ =>
      match direction_mapping key with
      | Some new_direction =>
          if turn_allowed (Snake.direction snake) new_direction then
            {| Snake.position := Snake.position snake;
               Snake.speed := Snake.speed snake;
               Snake.paused := Snake.paused snake;
               Snake.game_over := Snake.game_over snake;
               Snake.direction := Snake.direction snake;
               Snake.next_direction := Some new_direction;
               Snake.length := Snake.length snake;
               Snake.positions := Snake.positions snake;
               Snake.last := Snake.last snake |}
          else snake
      | None => snake
      end
  end.

(** [handle_keys] over the events of [pg.event.get()]: [QUIT] returns
    [False] at once and leaves the later events of the batch unread. *)
Fixpoint handle_keys (snake : Snake.t) (events : list Event)
  : Snake.t * bool :=
  match events with
  | [] => (snake, true)
  | QUIT :: _ => (snake, false)
  | KEYDOWN key :: rest => handle_keys (handle_keydown snake key) rest
  | other_event :: rest => handle_keys snake rest
  end.

(** ** main (lines 206-245) *)

(** Lines 217-220: one step of the snake. *)
Definition step (snake : Snake.t) : Snake.t :=
  let '(snake, next_position) := Snake.move snake in
  let snake := Snake.is_game_over snake next_position in
  let snake := Snake.insert_next_position snake next_position in
  Snake.del_last_segment snake.

(** Lines 222-224: the snake has eaten the apple. *)
Definition grow (snake : Snake.t) : Snake.t :=
  {| Snake.position := Snake.position snake;
     Snake.speed := if Snake.speed snake <? 100 then Snake.speed snake + 1
                    else Snake.speed snake;
     Snake.paused := Snake.paused snake;
     Snake.game_over := Snake.game_over snake;
     Snake.direction := Snake.direction snake;
     Snake.next_direction := Snake.next_direction snake;
     Snake.length := S (Snake.length snake);
     Snake.positions := Snake.positions snake;
     Snake.last := Snake.last snake |}.

(** The variables of [main] that the engine depends on.  The apple holds
    in [snake_positions] the very list object made by [Snake.__init__]:
    [insert] and [pop] change that object in place and [main] never calls
    [reset], the only method that binds [positions] to a new list, so the
    apple always reads the current body of the snake. *)
Record Game : Type := mkGame {
  snake : Snake.t;
  apple_position : Cell;
  running : bool
}.

(** Lines 209-211: [Snake()], [Apple(snake.positions)], [running = True];
    [Apple.__init__] places the apple with [randomize_position]. *)
Definition start (tape : list Z) : Result Game :=
  let snake := Snake.init in
  match Apple.generate_new_position (Snake.positions snake) tape with
  | Return p => Return {| snake := snake; apple_position := p; running := true |}
  | Raise e => Raise e
  | Looping => Looping
  end.

(** Lines 213-225: one iteration of the loop, on the events of this frame
    and the random tape the iteration may read. *)
Definition tick (events : list Event) (tape : list Z) (g : Game)
  : Result Game :=
  let '(snake, running) := handle_keys (snake g) events in
  if negb (Snake.game_over snake || Snake.paused snake) then
    let snake := step snake in
    if tuple_eqb (Snake.position snake) (apple_position g) then
      let snake := grow snake in
      match Apple.generate_new_position (Snake.positions snake) tape with
      | Return p =>
          Return {| snake := snake; apple_position := p; running := running |}
      | Raise e => Raise e
      | Looping => Looping
      end
    else
      Return {| snake := snake; apple_position := apple_position g;
                running := running |}
  else
    Return {| snake := snake; apple_position := apple_position g;
              running := running |}.

(** The states of [main] at the head of its loop. *)
Inductive reachable : Game -> Prop :=
| reachable_start : forall tape g,
    start tape = Return g -> reachable g
| reachable_tick : forall events tape g g',
    reachable g -> running g = true ->
    tick events tape g = Return g' -> reachable g'.

(** [main] run over a list of frames, each with its events and its random
    tape, for as long as [running] holds. *)
Fixpoint play (frames : list (list Event * list Z)) (g : Game)
  : Result Game :=
  match frames with
  | [] => Return g
  | (events, tape) :: rest =>
      if running g then
        match tick events tape g with
        | Return g' => play rest g'
        | Raise e => Raise e
        | Looping => Looping
        end
      else Return g
  end.

(** The methods of [Snake] and the blocks of [main] that change a snake,
    for callers that use them in any order. *)
Inductive Op : Type :=
| op_handle_keys (events : list Event)
| op_move_insert
| op_is_game_over (c : Cell)
| op_del_last_segment
| op_reset
| op_grow.

Definition apply_op (s : Snake.t) (o : Op) : Snake.t :=
  match o with
  | op_handle_keys events => fst (handle_keys s events)
  | op_move_insert =>
      let '(s, next_position) := Snake.move s in
      Snake.insert_next_position s next_position
  | op_is_game_over c => Snake.is_game_over s c
  | op_del_last_segment => Snake.del_last_segment s
  | op_reset => Snake.reset s
  | op_grow => grow s
  end.

Definition run_ops (ops : list Op) : Snake.t :=
  fold_left apply_op ops Snake.init.

(** ** Vocabulary of the properties *)

Definition is_dir (d : Dir) : Prop :=
  d = UP \/ d = DOWN \/ d = LEFT \/ d = RIGHT.

Definition opposite (d : Dir) : Dir := (- fst d, - snd d).

Definition perpendicular (d e : Dir) : Prop :=
  is_dir d /\ is_dir e /\ d <> e /\ d <> opposite e.

(** The pixel position of the grid cell [(cx, cy)]. *)
Definition cell (cx cy : Z) : Cell := (cx * GRID_SIZE, cy * GRID_SIZE).

Definition on_grid (c : Cell) : Prop :=
  exists cx cy,
    0 <= cx < GRID_WIDTH /\ 0 <= cy < GRID_HEIGHT /\ c = cell cx cy.

Definition covers_grid (occupied : list Cell) : Prop :=
  forall c, on_grid c -> In c occupied.

(** All the cells of the grid, row by row. *)
Definition all_cells : list Cell :=
  flat_map (fun cy => map (fun cx => cell (Z.of_nat cx) (Z.of_nat cy))
                          (seq 0 (Z.to_nat GRID_WIDTH)))
           (seq 0 (Z.to_nat GRID_HEIGHT)).

(** The next position that [move] computes. *)
Definition next_head (s : Snake.t) : Cell := snd (Snake.move s).

(** The next head is a cell of the body at index 2 or beyond. *)
Definition self_collision (s : Snake.t) : Prop :=
  exists i, (2 <= i)%nat /\ nth_error (Snake.positions s) i = Some (next_head s).

(** What holds of the snake at the head of the loop of [main]. *)
Record snake_inv (s : Snake.t) : Prop := {
  inv_direction : is_dir (Snake.direction s);
  inv_next_direction :
    forall d, Snake.next_direction s = Some d ->
              is_dir d /\ d <> opposite (Snake.direction s);
  inv_length : (1 <= Snake.length s)%nat;
  inv_head : exists rest, Snake.positions s = Snake.position s :: rest;
  inv_live :
    (List.length (Snake.positions s) <= Snake.length s
     <= S (List.length (Snake.positions s)))%nat;
  inv_speed : SPEED <= Snake.speed s <= 100
}.

(** A game in which the snake runs into itself at the seventh frame: it
    eats four apples in a row, then turns down, left and up. *)
Definition crash_frames : list (list Event * list Z) :=
  [ ([], [18; 12]); ([], [19; 12]); ([], [20; 12]); ([], [0; 0]);
    ([KEYDOWN K_DOWN], []); ([KEYDOWN K_LEFT], []) ].

Definition before_crash : Game :=
  {| snake :=
       {| Snake.position := (380, 260);
          Snake.speed := 24;
          Snake.paused := false;
          Snake.game_over := false;
          Snake.direction := LEFT;
          Snake.next_direction := None;
          Snake.length := 5;
          Snake.positions :=
            [(380, 260); (400, 260); (400, 240); (380, 240); (360, 240)];
          Snake.last := Some (340, 240) |};
     apple_position := (0, 0);
     running := true |}.

(** A snake of length 1 on the last column of the grid, heading right. *)
Definition edge_snake : Snake.t :=
  {| Snake.position := (620, 100);
     Snake.speed := SPEED;
     Snake.paused := false;
     Snake.game_over := false;
     Snake.direction := RIGHT;
     Snake.next_direction := None;
     Snake.length := 1;
     Snake.positions := [(620, 100)];
     Snake.last := Some (600, 100) |}.

(** The snake of [before_crash] once the frame's [K_UP] has been read: its
    next head is the cell at index 3 of its body. *)
Definition crash_snake : Snake.t :=
  fst (handle_keys (snake before_crash) [KEYDOWN K_UP]).

(** The game two frames after [before_crash]: the snake has run into
    itself on [K_UP], and a [K_LEFT] pressed afterwards is buffered. *)
Definition after_crash : Game :=
  {| snake :=
       {| Snake.position := (380, 240);
          Snake.speed := 24;
          Snake.paused := false;
          Snake.game_over := true;
          Snake.direction := UP;
          Snake.next_direction := Some LEFT;
          Snake.length := 5;
          Snake.positions :=
            [(380, 240); (380, 260); (400, 260); (400, 240); (380, 240)];
          Snake.last := Some (360, 240) |};
     apple_position := (0, 0);
     running := true |}.

(** What the callers of the methods can rely on: [length] is at least 1
    and the body starts with [position]. *)
Definition head_inv (s : Snake.t) : Prop :=
  (1 <= Snake.length s)%nat /\
  exists rest, Snake.positions s = Snake.position s :: rest.

(** The cell next to [c] in the direction [d], as [Snake.move] computes
    it. *)
Definition shift (c : Cell) (d : Dir) : Cell :=
  ((fst c + fst d * GRID_SIZE) mod SCREEN_WIDTH,
   (snd c + snd d * GRID_SIZE) mod SCREEN_HEIGHT).

(** Every cell of the list is next to the cell that follows it. *)
Fixpoint chain (l : list Cell) : Prop :=
  match l with
  | a :: (b :: _) as r => (exists d, is_dir d /\ a = shift b d) /\ chain r
  | _ => True
  end.

(** The candidate cells that [generate_new_position] draws from a tape,
    in order. *)
Fixpoint candidates (tape : list Z) : list Cell :=
  match tape with
  | rx :: ry :: tape' =>
      (randint 0 (GRID_WIDTH - 1) rx * GRID_SIZE,
       randint 0 (GRID_HEIGHT - 1) ry * GRID_SIZE) :: candidates tape'
  | _ => []
  end.

(** An event that leaves the buffered direction of a snake heading in
    [direction] as it is: anything but an arrow key that lines 196-201
    accept. *)
Definition keeps_buffer (direction : Dir) (e : Event) : Prop :=
  match e with
  | KEYDOWN key =>
      match direction_mapping key with
      | Some d => turn_allowed direction d = false
      | None => True
      end
  | _ => True
  end.

(** The number of [K_SPACE] presses among the events. *)
Definition spaces (events : list Event) : nat :=
  List.length
    (filter (fun e => match e with KEYDOWN K_SPACE => true | _ => false end)
            events).

(** What holds of the whole game at the head of the loop of [main]. *)
Record game_inv (g : Game) : Prop := {
  ginv_snake : snake_inv (snake g);
  ginv_grid : Forall on_grid (Snake.positions (snake g));
  ginv_chain : chain (Snake.positions (snake g));
  ginv_neck :
    forall h b rest,
      Snake.positions (snake g) = h :: b :: rest ->
      h = shift b (Snake.direction (snake g));
  ginv_nodup :
    Snake.game_over (snake g) = false -> NoDup (Snake.positions (snake g));
  ginv_apple :
    on_grid (apple_position g) /\
    ~ In (apple_position g) (Snake.positions (snake g));
  ginv_speed :
    Snake.speed (snake g)
    = Z.min 100 (SPEED + Z.of_nat (Snake.length (snake g)) - 1)
}.

(** The game at the start of [main] when the first apple is drawn on the
    cell right of the snake. *)
Definition first_game : Game :=
  {| snake := Snake.init; apple_position := (340, 240); running := true |}.

(** ** Basic facts *)

Lemma tuple_eqb_eq (a b : Z * Z) : tuple_eqb a b = true <-> a = b.
Proof.
  destruct a as [a1 a2], b as [b1 b2]; unfold tuple_eqb; simpl.
  rewrite andb_true_iff, !Z.eqb_eq. split.
  - intros [-> ->]; reflexivity.
  - intros E; inversion E; auto.
Qed.

Lemma tuple_eqb_refl (a : Z * Z) : tuple_eqb a a = true.
Proof. apply tuple_eqb_eq; reflexivity. Qed.

Lemma tuple_eqb_neq (a b : Z * Z) : tuple_eqb a b = false <-> a <> b.
Proof.
  rewrite <- tuple_eqb_eq. destruct (tuple_eqb a b); split; congruence.
Qed.

Lemma inb_In (c : Cell) (l : list Cell) : inb c l = true <-> In c l.
Proof.
  unfold inb. rewrite existsb_exists. split.
  - intros [x [Hx E]]. apply tuple_eqb_eq in E. subst; assumption.
  - intros H. exists c. split; [assumption | apply tuple_eqb_refl].
Qed.

Lemma inb_not_In (c : Cell) (l : list Cell) : inb c l = false <-> ~ In c l.
Proof.
  rewrite <- inb_In. destruct (inb c l); split; congruence.
Qed.

Lemma pop_snoc (l : list Cell) (x : Cell) : pop (l ++ [x]) = Some (l, x).
Proof.
  induction l as [|a l IH]; simpl.
  - reflexivity.
  - rewrite IH. reflexivity.
Qed.

Lemma pop_cons (x : Cell) (l : list Cell) :
  exists r y, pop (x :: l) = Some (r, y) /\ x :: l = r ++ [y].
Proof.
  destruct (exists_last (l := x :: l)) as [r [y E]]; [discriminate|].
  exists r, y. rewrite E. split; [apply pop_snoc | reflexivity].
Qed.

Lemma pop_cons_cons (x y : Cell) (l : list Cell) :
  exists r z, pop (x :: y :: l) = Some (x :: r, z) /\ y :: l = r ++ [z].
Proof.
  destruct (pop_cons y l) as [r [z [E1 E2]]].
  exists r, z. split; [|assumption].
  change (pop (x :: y :: l)) with
    (match pop (y :: l) with
     | None => Some ([], x)
     | Some (r', y') => Some (x :: r', y')
     end).
  rewrite E1. reflexivity.
Qed.

Lemma In_skipn_nth_error (n : nat) (c : Cell) (l : list Cell) :
  In c (skipn n l) <->
  exists i, (n <= i)%nat /\ nth_error l i = Some c.
Proof.
  split.
  - intros H. apply In_nth_error in H. destruct H as [j Hj].
    exists (n + j)%nat. split; [lia|].
    rewrite <- Hj. symmetry. apply nth_error_skipn.
  - intros [i [Hi E]].
    replace i with (n + (i - n))%nat in E by lia.
    rewrite <- nth_error_skipn in E.
    eapply nth_error_In; eassumption.
Qed.

(** ** The step, field by field *)

Lemma update_direction_fields (s : Snake.t) :
  let s' := Snake.update_direction s in
  Snake.position s' = Snake.position s /\
  Snake.positions s' = Snake.positions s /\
  Snake.length s' = Snake.length s /\
  Snake.speed s' = Snake.speed s /\
  Snake.game_over s' = Snake.game_over s /\
  Snake.paused s' = Snake.paused s /\
  Snake.last s' = Snake.last s /\
  Snake.next_direction s' = None /\
  Snake.direction s' =
    match Snake.next_direction s with
    | Some d => d
    | None => Snake.direction s
    end.
Proof.
  unfold Snake.update_direction.
  destruct (Snake.next_direction s) eqn:E; simpl; auto 10.
Qed.

Lemma move_fst (s : Snake.t) : fst (Snake.move s) = Snake.update_direction s.
Proof.
  unfold Snake.move.
  destruct (Snake.position (Snake.update_direction s)) as [x y].
  destruct (Snake.direction (Snake.update_direction s)) as [dx dy].
  reflexivity.
Qed.

Lemma move_eq (s : Snake.t) :
  Snake.move s = (Snake.update_direction s, next_head s).
Proof.
  unfold next_head. rewrite <- move_fst. destruct (Snake.move s); reflexivity.
Qed.

Lemma step_eq (s : Snake.t) :
  step s =
  Snake.del_last_segment
    (Snake.insert_next_position
       (Snake.is_game_over (Snake.update_direction s) (next_head s))
       (next_head s)).
Proof. unfold step. rewrite move_eq. reflexivity. Qed.

Lemma is_game_over_fields (s : Snake.t) (c : Cell) :
  let s' := Snake.is_game_over s c in
  Snake.position s' = Snake.position s /\
  Snake.positions s' = Snake.positions s /\
  Snake.length s' = Snake.length s /\
  Snake.speed s' = Snake.speed s /\
  Snake.paused s' = Snake.paused s /\
  Snake.last s' = Snake.last s /\
  Snake.next_direction s' = Snake.next_direction s /\
  Snake.direction s' = Snake.direction s /\
  Snake.game_over s' =
    Snake.game_over s || inb c (skipn 2 (Snake.positions s)).
Proof.
  unfold Snake.is_game_over.
  destruct (inb c (skipn 2 (Snake.positions s))); simpl;
    rewrite ?orb_true_r, ?orb_false_r; auto 10.
Qed.

Lemma del_last_segment_fields (s : Snake.t) :
  let s' := Snake.del_last_segment s in
  Snake.position s' = Snake.position s /\
  Snake.length s' = Snake.length s /\
  Snake.speed s' = Snake.speed s /\
  Snake.paused s' = Snake.paused s /\
  Snake.game_over s' = Snake.game_over s /\
  Snake.next_direction s' = Snake.next_direction s /\
  Snake.direction s' = Snake.direction s.
Proof.
  unfold Snake.del_last_segment.
  destruct (Snake.length s <? List.length (Snake.positions s))%nat;
    [destruct (pop (Snake.positions s)) as [[rest c]|]|]; simpl; auto 10.
Qed.

(** What [del_last_segment] does to the body and to [last]. *)
Lemma del_last_segment_positions (s : Snake.t) :
  let s' := Snake.del_last_segment s in
  ((Snake.length s < List.length (Snake.positions s))%nat ->
   exists c, Snake.positions s = Snake.positions s' ++ [c] /\
             Snake.last s' = Some c) /\
  ((List.length (Snake.positions s) <= Snake.length s)%nat ->
   Snake.positions s' = Snake.positions s /\ Snake.last s' = Snake.last s).
Proof.
  unfold Snake.del_last_segment.
  destruct (Snake.length s <? List.length (Snake.positions s))%nat eqn:E.
  - apply Nat.ltb_lt in E. split; [intros _ | lia].
    destruct (Snake.positions s) as [|x l] eqn:P; [simpl in E; lia|].
    destruct (pop_cons x l) as [r [y [E1 E2]]].
    rewrite E1. simpl. exists y. split; [assumption | reflexivity].
  - apply Nat.ltb_ge in E. split; [lia | auto].
Qed.

Lemma step_fields (s : Snake.t) :
  Snake.position (step s) = next_head s /\
  Snake.length (step s) = Snake.length s /\
  Snake.speed (step s) = Snake.speed s /\
  Snake.paused (step s) = Snake.paused s /\
  Snake.next_direction (step s) = None /\
  Snake.direction (step s) = Snake.direction (Snake.update_direction s) /\
  Snake.game_over (step s) =
    Snake.game_over s || inb (next_head s) (skipn 2 (Snake.positions s)).
Proof.
  rewrite step_eq.
  set (s1 := Snake.update_direction s).
  set (s2 := Snake.is_game_over s1 (next_head s)).
  set (s3 := Snake.insert_next_position s2 (next_head s)).
  destruct (del_last_segment_fields s3) as (P & L & V & Pa & G & N & D).
  destruct (is_game_over_fields s1 (next_head s))
    as (_ & P2 & L2 & V2 & Pa2 & _ & N2 & D2 & G2).
  destruct (update_direction_fields s)
    as (_ & P1 & L1 & V1 & G1 & Pa1 & _ & N1 & _).
  fold s1 in P1, L1, V1, G1, Pa1, N1. fold s2 in P2, L2, V2, Pa2, N2, D2, G2.
  rewrite P, L, V, Pa, G, N, D. subst s3. simpl.
  rewrite L2, V2, Pa2, N2, D2, G2, L1, V1, Pa1, N1, G1, P1. auto 10.
Qed.

(** The body after a step: the next head in front, and the last cell
    removed when the body would be longer than [length]. *)
Lemma step_positions (s : Snake.t) :
  ((Snake.length s <= List.length (Snake.positions s))%nat ->
   exists c, next_head s :: Snake.positions s = Snake.positions (step s) ++ [c]
             /\ Snake.last (step s) = Some c) /\
  ((List.length (Snake.positions s) < Snake.length s)%nat ->
   Snake.positions (step s) = next_head s :: Snake.positions s /\
   Snake.last (step s) = Snake.last s).
Proof.
  rewrite step_eq.
  set (s1 := Snake.update_direction s).
  set (s2 := Snake.is_game_over s1 (next_head s)).
  set (s3 := Snake.insert_next_position s2 (next_head s)).
  destruct (is_game_over_fields s1 (next_head s))
    as (_ & P2 & L2 & _ & _ & La2 & _).
  destruct (update_direction_fields s)
    as (_ & P1 & L1 & _ & _ & _ & La1 & _).
  fold s1 in P1, L1, La1. fold s2 in P2, L2, La2.
  assert (P3 : Snake.positions s3 = next_head s :: Snake.positions s)
    by (subst s3; simpl; congruence).
  assert (L3 : Snake.length s3 = Snake.length s)
    by (subst s3; simpl; congruence).
  assert (La3 : Snake.last s3 = Snake.last s)
    by (subst s3; simpl; congruence).
  destruct (del_last_segment_positions s3) as [A B].
  rewrite P3, L3, La3 in *. simpl List.length in *. split; intros H.
  - apply A. lia.
  - apply B. lia.
Qed.

(** ** Movement *)

Lemma next_head_eq (s : Snake.t) :
  next_head s =
  let d := Snake.direction (Snake.update_direction s) in
  ((fst (Snake.position s) + fst d * GRID_SIZE) mod SCREEN_WIDTH,
   (snd (Snake.position s) + snd d * GRID_SIZE) mod SCREEN_HEIGHT).
Proof.
  unfold next_head, Snake.move.
  destruct (update_direction_fields s) as (P & _). simpl in P. rewrite P.
  destruct (Snake.position s) as [x y].
  destruct (Snake.direction (Snake.update_direction s)) as [dx dy].
  reflexivity.
Qed.

Lemma wrap_x (cx dx : Z) :
  (cx * GRID_SIZE + dx * GRID_SIZE) mod SCREEN_WIDTH
  = (cx + dx) mod GRID_WIDTH * GRID_SIZE.
Proof.
  rewrite <- Z.mul_add_distr_r.
  change SCREEN_WIDTH with (GRID_WIDTH * GRID_SIZE).
  apply Z.mul_mod_distr_r; discriminate.
Qed.

Lemma wrap_y (cy dy : Z) :
  (cy * GRID_SIZE + dy * GRID_SIZE) mod SCREEN_HEIGHT
  = (cy + dy) mod GRID_HEIGHT * GRID_SIZE.
Proof.
  rewrite <- Z.mul_add_distr_r.
  change SCREEN_HEIGHT with (GRID_HEIGHT * GRID_SIZE).
  apply Z.mul_mod_distr_r; discriminate.
Qed.

Lemma next_head_cell (s : Snake.t) (cx cy : Z) :
  Snake.position s = cell cx cy ->
  let d := Snake.direction (Snake.update_direction s) in
  next_head s = cell ((cx + fst d) mod GRID_WIDTH) ((cy + snd d) mod GRID_HEIGHT).
Proof.
  intros P. rewrite next_head_eq, P. unfold cell. simpl.
  rewrite wrap_x, wrap_y. reflexivity.
Qed.

Lemma next_head_on_grid (s : Snake.t) :
  on_grid (Snake.position s) -> on_grid (next_head s).
Proof.
  intros (cx & cy & _ & _ & P).
  exists ((cx + fst (Snake.direction (Snake.update_direction s))) mod GRID_WIDTH),
         ((cy + snd (Snake.direction (Snake.update_direction s))) mod GRID_HEIGHT).
  split; [apply Z.mod_pos_bound; reflexivity|].
  split; [apply Z.mod_pos_bound; reflexivity|].
  apply next_head_cell; assumption.
Qed.

(** C6.  From a head on the grid cell [(cx, cy)], with the committed
    direction [(dx, dy)], [move] computes the cell
    [((cx + dx) mod W, (cy + dy) mod H)]: one cell further in that
    direction, from column [W-1] to column 0 when going right, from column
    0 to column [W-1] when going left, likewise for the rows, and always a
    cell of the grid. *)
Theorem move_wraps (s : Snake.t) (cx cy : Z) :
  0 <= cx < GRID_WIDTH -> 0 <= cy < GRID_HEIGHT ->
  Snake.position s = cell cx cy ->
  let d := Snake.direction (Snake.update_direction s) in
  next_head s = cell ((cx + fst d) mod GRID_WIDTH) ((cy + snd d) mod GRID_HEIGHT)
  /\ on_grid (next_head s)
  /\ (d = RIGHT ->
      next_head s = cell (if cx =? GRID_WIDTH - 1 then 0 else cx + 1) cy)
  /\ (d = LEFT ->
      next_head s = cell (if cx =? 0 then GRID_WIDTH - 1 else cx - 1) cy)
  /\ (d = DOWN ->
      next_head s = cell cx (if cy =? GRID_HEIGHT - 1 then 0 else cy + 1))
  /\ (d = UP ->
      next_head s = cell cx (if cy =? 0 then GRID_HEIGHT - 1 else cy - 1)).
Proof.
  intros Hx Hy P d.
  pose proof (next_head_cell s cx cy P) as E. fold d in E. simpl in E.
  assert (Wv : GRID_WIDTH = 32) by reflexivity.
  assert (Hv : GRID_HEIGHT = 24) by reflexivity.
  split; [exact E|].
  split; [apply next_head_on_grid; rewrite P; exists cx, cy; auto|].
  rewrite E. rewrite Wv, Hv in *.
  repeat split; intros ->; simpl fst; simpl snd; rewrite ?Z.add_0_r;
    repeat match goal with
           | |- context [?a =? ?b] => destruct (Z.eqb_spec a b)
           end;
    subst; f_equal; try reflexivity; rewrite Z.mod_small by lia; lia.
Qed.

Lemma move_wraps_witness :
  next_head edge_snake = cell 0 5 /\ on_grid (next_head edge_snake).
Proof.
  assert (Hx : 0 <= 31 < GRID_WIDTH) by (split; [discriminate | reflexivity]).
  assert (Hy : 0 <= 5 < GRID_HEIGHT) by (split; [discriminate | reflexivity]).
  destruct (move_wraps edge_snake 31 5 Hx Hy eq_refl) as (_ & G & R & _).
  split; [exact (R eq_refl) | exact G].
Defined.

(** ** Runs of [main] *)

Lemma play_reachable (frames : list (list Event * list Z)) :
  forall g g', reachable g -> play frames g = Return g' -> reachable g'.
Proof.
  induction frames as [|[events tape] rest IH]; intros g g' R P; simpl in P.
  - inversion P; subst; assumption.
  - destruct (running g) eqn:Run.
    + destruct (tick events tape g) as [g1| |] eqn:T; try discriminate.
      apply (IH g1); [|assumption].
      eapply reachable_tick; eassumption.
    + inversion P; subst; assumption.
Qed.

Lemma before_crash_reachable : reachable before_crash.
Proof.
  destruct (start [17; 12]) as [g0| |] eqn:S0; try discriminate.
  apply (play_reachable crash_frames g0).
  - apply (reachable_start [17; 12]). assumption.
  - vm_compute in S0. inversion S0; subst. vm_compute. reflexivity.
Qed.

(** ** Self-collision *)

Lemma step_game_over (s : Snake.t) :
  Snake.game_over (step s) = true <->
  Snake.game_over s = true \/ self_collision s.
Proof.
  destruct (step_fields s) as (_ & _ & _ & _ & _ & _ & G).
  rewrite G, orb_true_iff, inb_In, In_skipn_nth_error. reflexivity.
Qed.

(** C4.  In a step of a snake whose game is not over, the flag
    [game_over] becomes true when the next head is a cell of the body at
    index 2 or beyond, and stays false when the next head is found in the
    body at index 0 or 1 only (or not at all). *)
Theorem self_collision_correct (s : Snake.t) :
  Snake.game_over s = false ->
  (self_collision s -> Snake.game_over (step s) = true) /\
  ((forall i, nth_error (Snake.positions s) i = Some (next_head s) ->
              i = 0%nat \/ i = 1%nat) ->
   Snake.game_over (step s) = false).
Proof.
  intros G. split.
  - intros C. apply step_game_over. right; assumption.
  - intros Only. apply not_true_is_false. intros T.
    apply step_game_over in T. destruct T as [T | (i & Hi & E)].
    + congruence.
    + destruct (Only i E); lia.
Qed.

(** A snake that turns back onto the cell right behind its head (index 1
    of the body); [main] never produces it, the check is what is shown. *)
Lemma self_collision_correct_witness :
  Snake.game_over (step crash_snake) = true /\
  Snake.game_over
    (step {| Snake.position := (40, 0);
             Snake.speed := SPEED;
             Snake.paused := false;
             Snake.game_over := false;
             Snake.direction := LEFT;
             Snake.next_direction := None;
             Snake.length := 3;
             Snake.positions := [(40, 0); (20, 0); (0, 0)];
             Snake.last := None |}) = false.
Proof.
  split.
  - apply (self_collision_correct crash_snake eq_refl).
    exists 3%nat. split; [repeat constructor | reflexivity].
  - apply self_collision_correct; [reflexivity|].
    intros [|[|[|[|i]]]] E; vm_compute in E; try discriminate; auto.
Defined.

(** C1 as the specification states it fails on [crash_snake]: the step
    that finds the collision still moves the snake. *)
Lemma collision_step_still_moves :
  ~ (self_collision crash_snake ->
     Snake.game_over (step crash_snake) = true /\
     Snake.positions (step crash_snake) = Snake.positions crash_snake /\
     Snake.position (step crash_snake) = Snake.position crash_snake /\
     Snake.last (step crash_snake) = Snake.last crash_snake).
Proof.
  intros H.
  assert (C : self_collision crash_snake)
    by (exists 3%nat; split; [repeat constructor | reflexivity]).
  destruct (H C) as (_ & _ & P & _).
  vm_compute in P. discriminate.
Qed.

(** C1, amended.  A step that finds a self-collision sets [game_over] and
    then completes the move like any other step: the next head becomes the
    position and the first cell of the body, and the last cell of the body
    is removed and kept in [last] when the body would otherwise be longer
    than [length]. *)
Theorem collision_sets_game_over (s : Snake.t) :
  self_collision s ->
  Snake.game_over (step s) = true /\
  Snake.position (step s) = next_head s /\
  ((Snake.length s <= List.length (Snake.positions s))%nat ->
   exists c,
     next_head s :: Snake.positions s = Snake.positions (step s) ++ [c] /\
     Snake.last (step s) = Some c) /\
  ((List.length (Snake.positions s) < Snake.length s)%nat ->
   Snake.positions (step s) = next_head s :: Snake.positions s /\
   Snake.last (step s) = Snake.last s).
Proof.
  intros C.
  split; [apply step_game_over; right; assumption|].
  split; [apply step_fields|].
  apply step_positions.
Qed.

Lemma collision_sets_game_over_witness :
  Snake.game_over (step crash_snake) = true /\
  Snake.position (step crash_snake) = (380, 240) /\
  Snake.positions (step crash_snake) =
    [(380, 240); (380, 260); (400, 260); (400, 240); (380, 240)] /\
  Snake.last (step crash_snake) = Some (360, 240).
Proof.
  assert (C : self_collision crash_snake)
    by (exists 3%nat; split; [repeat constructor | reflexivity]).
  destruct (collision_sets_game_over crash_snake C) as (G & P & _ & _).
  split; [exact G|]. split; [exact P|]. split; reflexivity.
Defined.

(** ** Directions *)

Lemma is_dir_cases (P : Dir -> Prop) :
  P UP -> P DOWN -> P LEFT -> P RIGHT -> forall d, is_dir d -> P d.
Proof. intros U D L R d [->|[->|[->| ->]]]; assumption. Qed.

Lemma direction_mapping_is_dir (key : Key) (d : Dir) :
  direction_mapping key = Some d -> is_dir d.
Proof.
  unfold is_dir. destruct key; simpl; intros E; inversion E; auto.
Qed.

(** Lines 196-201 accept exactly the directions that are not the reverse
    of the committed one. *)
Lemma turn_allowed_iff (direction new_direction : Dir) :
  is_dir direction -> is_dir new_direction ->
  turn_allowed direction new_direction = true <->
  new_direction <> opposite direction.
Proof.
  intros D N. revert new_direction N.
  apply is_dir_cases; revert direction D; apply is_dir_cases;
    vm_compute; split; congruence.
Qed.

Lemma perpendicular_allowed (direction new_direction : Dir) :
  perpendicular new_direction direction ->
  turn_allowed direction new_direction = true.
Proof.
  intros (N & D & _ & O). apply turn_allowed_iff; assumption.
Qed.

(** ** The invariant of the loop *)

Lemma snake_inv_init : snake_inv Snake.init.
Proof.
  constructor; simpl.
  - right; right; right; reflexivity.
  - discriminate.
  - lia.
  - exists []; reflexivity.
  - lia.
  - unfold SPEED; lia.
Qed.

Lemma handle_keydown_fields (s : Snake.t) (key : Key) :
  let s' := handle_keydown s key in
  Snake.position s' = Snake.position s /\
  Snake.positions s' = Snake.positions s /\
  Snake.length s' = Snake.length s /\
  Snake.speed s' = Snake.speed s /\
  Snake.game_over s' = Snake.game_over s /\
  Snake.last s' = Snake.last s /\
  Snake.direction s' = Snake.direction s /\
  Snake.next_direction s' =
    match direction_mapping key with
    | Some d =>
        if turn_allowed (Snake.direction s) d then Some d
        else Snake.next_direction s
    | None => Snake.next_direction s
    end.
Proof.
  unfold handle_keydown.
  destruct key; simpl;
    try destruct (turn_allowed (Snake.direction s) _); simpl; auto 10.
Qed.

Lemma handle_keydown_inv (s : Snake.t) (key : Key) :
  snake_inv s -> snake_inv (handle_keydown s key).
Proof.
  intros [D N L H V Sp].
  destruct (handle_keydown_fields s key)
    as (E1 & E2 & E3 & E4 & _ & _ & E7 & E8).
  constructor; rewrite ?E1, ?E2, ?E3, ?E4, ?E7; try assumption.
  intros d. rewrite E8.
  destruct (direction_mapping key) as [n|] eqn:M; [|apply N].
  destruct (turn_allowed (Snake.direction s) n) eqn:T; [|apply N].
  intros E; inversion E; subst d.
  pose proof (direction_mapping_is_dir key n M) as Dn.
  split; [assumption|]. apply turn_allowed_iff; assumption.
Qed.

Lemma handle_keys_inv (events : list Event) :
  forall s, snake_inv s -> snake_inv (fst (handle_keys s events)).
Proof.
  induction events as [|e rest IH]; intros s I; simpl.
  - assumption.
  - destruct e; simpl; auto using handle_keydown_inv.
Qed.

Lemma handle_keys_fields (events : list Event) :
  forall s,
    let s' := fst (handle_keys s events) in
    Snake.position s' = Snake.position s /\
    Snake.positions s' = Snake.positions s /\
    Snake.length s' = Snake.length s /\
    Snake.speed s' = Snake.speed s /\
    Snake.game_over s' = Snake.game_over s /\
    Snake.last s' = Snake.last s /\
    Snake.direction s' = Snake.direction s.
Proof.
  induction events as [|e rest IH]; intros s; simpl.
  - auto 10.
  - destruct e; simpl; auto 10.
    destruct (IH (handle_keydown s key)) as (E1 & E2 & E3 & E4 & E5 & E6 & E7).
    destruct (handle_keydown_fields s key)
      as (F1 & F2 & F3 & F4 & F5 & F6 & F7 & _).
    simpl in *. rewrite E1, E2, E3, E4, E5, E6, E7. auto 10.
Qed.

Lemma cons_eq_snoc (x c : Cell) (l r : list Cell) :
  l <> [] -> x :: l = r ++ [c] -> exists r', r = x :: r'.
Proof.
  intros NE E. destruct r as [|y r'].
  - simpl in E. inversion E; subst. congruence.
  - simpl in E. inversion E; subst. exists r'; reflexivity.
Qed.

(** After a step the body is exactly as long as [length]. *)
Lemma step_live_length (s : Snake.t) :
  (List.length (Snake.positions s) <= Snake.length s
   <= S (List.length (Snake.positions s)))%nat ->
  List.length (Snake.positions (step s)) = Snake.length (step s).
Proof.
  intros V. destruct (step_fields s) as (_ & L & _). rewrite L.
  destruct (step_positions s) as [A B].
  destruct (Nat.le_gt_cases (Snake.length s) (List.length (Snake.positions s)))
    as [Le | Gt].
  - destruct (A Le) as (c & E & _).
    apply (f_equal (@List.length Cell)) in E.
    rewrite length_app in E. simpl in E. lia.
  - destruct (B Gt) as (E & _). rewrite E. simpl. lia.
Qed.

Lemma step_inv (s : Snake.t) : snake_inv s -> snake_inv (step s).
Proof.
  intros [D N L H V Sp].
  pose proof (step_live_length s V) as Len.
  destruct (step_fields s) as (P1 & L1 & V1 & _ & N1 & D1 & _).
  destruct (update_direction_fields s) as (_ & _ & _ & _ & _ & _ & _ & _ & D2).
  simpl in D2.
  constructor.
  - rewrite D1, D2. destruct (Snake.next_direction s) as [d|] eqn:E.
    + apply (N d eq_refl).
    + assumption.
  - rewrite N1. discriminate.
  - rewrite L1. assumption.
  - rewrite P1. destruct (step_positions s) as [A B].
    destruct (Nat.le_gt_cases (Snake.length s)
                              (List.length (Snake.positions s))) as [Le | Gt].
    + destruct (A Le) as (c & E & _).
      destruct H as [rest H].
      assert (NE : Snake.positions s <> []) by (rewrite H; discriminate).
      destruct (cons_eq_snoc _ _ _ _ NE E) as [r' R].
      exists r'. assumption.
    + destruct (B Gt) as (E & _). exists (Snake.positions s). assumption.
  - rewrite Len. lia.
  - rewrite V1. assumption.
Qed.

Lemma grow_after_step_inv (s : Snake.t) :
  snake_inv s -> List.length (Snake.positions s) = Snake.length s ->
  snake_inv (grow s).
Proof.
  intros [D N L H V Sp] Len.
  constructor; simpl; try assumption; try lia.
  unfold SPEED in *.
  destruct (Z.ltb_spec (Snake.speed s) 100); lia.
Qed.

Lemma tick_inv (events : list Event) (tape : list Z) (g g' : Game) :
  snake_inv (snake g) -> tick events tape g = Return g' ->
  snake_inv (snake g').
Proof.
  intros I T. unfold tick in T.
  pose proof (handle_keys_inv events _ I) as I1.
  destruct (handle_keys (snake g) events) as [s1 run]. simpl in I1.
  destruct (negb (Snake.game_over s1 || Snake.paused s1)).
  - pose proof (step_inv s1 I1) as I2.
    pose proof (step_live_length s1 (inv_live _ I1)) as Len.
    destruct (tuple_eqb (Snake.position (step s1)) (apple_position g)).
    + destruct (Apple.generate_new_position _ tape); inversion T; subst.
      simpl. apply grow_after_step_inv; assumption.
    + inversion T; subst. assumption.
  - inversion T; subst. assumption.
Qed.

Lemma reachable_inv (g : Game) : reachable g -> snake_inv (snake g).
Proof.
  induction 1 as [tape g S | events tape g g' R IH Run T].
  - unfold start in S.
    destruct (Apple.generate_new_position _ tape); inversion S; subst.
    apply snake_inv_init.
  - eapply tick_inv; eassumption.
Qed.

(** The head of the snake of [main] is always a cell of the grid. *)
Lemma head_stays_on_grid (g : Game) :
  reachable g -> on_grid (Snake.position (snake g)).
Proof.
  induction 1 as [tape g S | events tape g g' R IH Run T].
  - unfold start in S.
    destruct (Apple.generate_new_position _ tape); inversion S; subst.
    exists 16, 12. repeat split; discriminate.
  - unfold tick in T.
    destruct (handle_keys_fields events (snake g)) as (P & _).
    destruct (handle_keys (snake g) events) as [s1 run]. simpl in P.
    assert (G1 : on_grid (Snake.position (step s1))).
    { destruct (step_fields s1) as (E & _). rewrite E.
      apply next_head_on_grid. rewrite P. assumption. }
    destruct (negb (Snake.game_over s1 || Snake.paused s1)).
    + destruct (tuple_eqb (Snake.position (step s1)) (apple_position g)).
      * destruct (Apple.generate_new_position _ tape); inversion T; subst.
        exact G1.
      * inversion T; subst. exact G1.
    + inversion T; subst. simpl. rewrite P. assumption.
Qed.

(** ** Direction requests *)

Lemma is_dir_opposite (d : Dir) : is_dir d -> is_dir (opposite d).
Proof.
  revert d; apply is_dir_cases; unfold is_dir; vm_compute; auto.
Qed.

Lemma opposite_neq (d : Dir) : is_dir d -> d <> opposite d.
Proof. revert d; apply is_dir_cases; vm_compute; congruence. Qed.

Lemma reverse_refused (s : Snake.t) (key : Key) :
  is_dir (Snake.direction s) ->
  direction_mapping key = Some (opposite (Snake.direction s)) ->
  handle_keydown s key = s.
Proof.
  intros D M.
  assert (T : turn_allowed (Snake.direction s) (opposite (Snake.direction s))
              = false).
  { apply not_true_is_false. intros T.
    apply turn_allowed_iff in T; auto using is_dir_opposite. }
  unfold handle_keydown. rewrite M, T.
  destruct key; try reflexivity. discriminate.
Qed.

Lemma step_direction_not_reversed (s : Snake.t) :
  snake_inv s -> Snake.direction (step s) <> opposite (Snake.direction s).
Proof.
  intros I. destruct (step_fields s) as (_ & _ & _ & _ & _ & D & _).
  destruct (update_direction_fields s) as (_ & _ & _ & _ & _ & _ & _ & _ & U).
  simpl in U. rewrite D, U.
  destruct (Snake.next_direction s) as [d|] eqn:E.
  - apply (inv_next_direction s I d E).
  - apply opposite_neq, (inv_direction s I).
Qed.

(** C5.  In a state of [main], whatever events are read before the next
    step: the committed direction is not changed by them; the reverse of
    the committed direction is not the buffered direction afterwards, a
    key that asks for it leaves the snake as it is, and neither the next
    step nor the whole iteration of the loop commits it; a key that asks
    for a perpendicular direction is buffered, and committed by the step
    that follows. *)
Theorem no_reverse (g : Game) (events : list Event) :
  reachable g ->
  let s := snake g in
  let s' := fst (handle_keys s events) in
  Snake.direction s' = Snake.direction s /\
  Snake.next_direction s' <> Some (opposite (Snake.direction s)) /\
  (forall key,
      direction_mapping key = Some (opposite (Snake.direction s)) ->
      handle_keydown s' key = s') /\
  Snake.direction (step s') <> opposite (Snake.direction s) /\
  (forall tape g',
      tick events tape g = Return g' ->
      Snake.direction (snake g') <> opposite (Snake.direction s)) /\
  (forall key d,
      direction_mapping key = Some d ->
      perpendicular d (Snake.direction s) ->
      Snake.next_direction (handle_keydown s' key) = Some d /\
      Snake.direction (step (handle_keydown s' key)) = d).
Proof.
  intros R s s'.
  pose proof (reachable_inv g R) as I. fold s in I.
  pose proof (handle_keys_inv events s I) as I'. fold s' in I'.
  destruct (handle_keys_fields events s) as (_ & _ & _ & _ & _ & _ & D).
  fold s' in D.
  split; [assumption|].
  split.
  { intros E. destruct (inv_next_direction s' I' _ E) as [_ N].
    rewrite D in N. congruence. }
  split.
  { intros key M. apply reverse_refused.
    - apply (inv_direction s' I').
    - rewrite D; assumption. }
  split.
  { rewrite <- D. apply step_direction_not_reversed; assumption. }
  split.
  { intros tape g' T. unfold tick in T. fold s in T.
    pose proof (surjective_pairing (handle_keys s events)) as F.
    fold s' in F. rewrite F in T. cbv beta iota zeta in T.
    rewrite <- D.
    destruct (negb (Snake.game_over s' || Snake.paused s')).
    - pose proof (step_direction_not_reversed s' I') as N.
      destruct (tuple_eqb (Snake.position (step s')) (apple_position g)).
      + destruct (Apple.generate_new_position _ tape); inversion T; subst.
        exact N.
      + inversion T; subst. exact N.
    - inversion T; subst. simpl.
      apply opposite_neq, (inv_direction s' I'). }
  intros key d M P.
  destruct (handle_keydown_fields s' key) as (_ & _ & _ & _ & _ & _ & _ & N).
  simpl in N. rewrite M, D, (perpendicular_allowed _ _ P) in N.
  split; [assumption|].
  destruct (step_fields (handle_keydown s' key)) as (_ & _ & _ & _ & _ & E & _).
  destruct (update_direction_fields (handle_keydown s' key))
    as (_ & _ & _ & _ & _ & _ & _ & _ & U).
  simpl in U. rewrite E, U, N. reflexivity.
Qed.

Lemma no_reverse_witness :
  Snake.next_direction
    (fst (handle_keys (snake before_crash) [KEYDOWN K_UP; KEYDOWN K_RIGHT]))
  <> Some RIGHT /\
  Snake.direction
    (step (handle_keydown
             (fst (handle_keys (snake before_crash)
                               [KEYDOWN K_UP; KEYDOWN K_RIGHT])) K_DOWN))
  = DOWN.
Proof.
  destruct (no_reverse before_crash [KEYDOWN K_UP; KEYDOWN K_RIGHT]
                       before_crash_reachable) as (_ & N & _ & _ & _ & A).
  split; [exact N|].
  apply (A K_DOWN DOWN eq_refl).
  unfold perpendicular, is_dir. vm_compute.
  repeat split; auto; discriminate.
Defined.

(** ** Growth *)

(** C7.  In a state of [main], at the head of the loop or at line 221
    where the apple is tested, the block that eats the apple leaves the
    body as it is, and the step that follows (whatever keys are read
    before it, colliding or not) puts the next head in front without
    removing the last cell: the body is longer by exactly 1.  The last
    cell is removed only when the body is longer than [length]. *)
Theorem growth_delay (g : Game) (events : list Event) (s : Snake.t) :
  reachable g ->
  s = snake g \/ s = step (fst (handle_keys (snake g) events)) ->
  Snake.positions (grow s) = Snake.positions s /\
  Snake.get_length (grow s) = Snake.get_length s /\
  Snake.length (grow s) = S (Snake.length s) /\
  (forall events',
      let s' := fst (handle_keys (grow s) events') in
      Snake.positions (step s') = next_head s' :: Snake.positions s /\
      Snake.get_length (step s') = S (Snake.get_length s) /\
      Snake.last (step s') = Snake.last s) /\
  (forall t, (List.length (Snake.positions t) <= Snake.length t)%nat ->
             Snake.positions (Snake.del_last_segment t) = Snake.positions t).
Proof.
  intros R Hs.
  assert (I : snake_inv s).
  { destruct Hs as [-> | ->].
    - apply reachable_inv; assumption.
    - apply step_inv, handle_keys_inv, reachable_inv; assumption. }
  split; [reflexivity|]. split; [reflexivity|]. split; [reflexivity|].
  split.
  - intros events' s'.
    destruct (handle_keys_fields events' (grow s))
      as (_ & P & L & _ & _ & La & _).
    fold s' in P, L, La. simpl in P, L, La.
    destruct (step_positions s') as [_ B].
    pose proof (inv_live s I) as V.
    destruct B as [E1 E2]; [rewrite P, L; lia|].
    unfold Snake.get_length. rewrite E1, E2, P, La. simpl. auto.
  - intros t Le. apply del_last_segment_positions. assumption.
Qed.

Lemma growth_delay_witness :
  Snake.get_length (grow (snake before_crash)) = 5%nat /\
  Snake.get_length (step (grow (snake before_crash))) = 6%nat.
Proof.
  destruct (growth_delay before_crash [] (snake before_crash)
                         before_crash_reachable (or_introl eq_refl))
    as (_ & E & _ & F & _).
  split; [exact E|].
  destruct (F []) as (_ & G & _). exact G.
Defined.

(** ** Speed *)

Lemma grow_speed (s : Snake.t) :
  Snake.speed (grow s) = Z.min (Snake.speed s + 1) (Z.max (Snake.speed s) 100).
Proof.
  simpl. destruct (Z.ltb_spec (Snake.speed s) 100); lia.
Qed.

Lemma iter_grow_speed (n : nat) (s : Snake.t) :
  Snake.speed s <= 100 ->
  Snake.speed s <= Snake.speed (Nat.iter n grow s) <= 100.
Proof.
  intros H. induction n as [|n IH]; simpl Nat.iter.
  - lia.
  - rewrite grow_speed. lia.
Qed.

Lemma tick_speed (events : list Event) (tape : list Z) (g g' : Game) :
  tick events tape g = Return g' ->
  Snake.speed (snake g') = Snake.speed (snake g) \/
  Snake.speed (snake g') = Snake.speed (grow (snake g)).
Proof.
  intros T. unfold tick in T.
  destruct (handle_keys_fields events (snake g)) as (_ & _ & _ & V & _).
  destruct (handle_keys (snake g) events) as [s1 run]. simpl in V.
  destruct (negb (Snake.game_over s1 || Snake.paused s1)).
  - destruct (step_fields s1) as (_ & _ & V1 & _).
    destruct (tuple_eqb (Snake.position (step s1)) (apple_position g)).
    + destruct (Apple.generate_new_position _ tape); inversion T; subst.
      right. simpl. rewrite V1, V. reflexivity.
    + inversion T; subst. left. simpl. congruence.
  - inversion T; subst. left. assumption.
Qed.

(** C8.  In every state of [main] the speed lies between the base speed 20
    and 100, five times the base speed; eating any number of apples keeps
    it there, each one adding 1 below the cap and nothing at the cap; and
    no iteration of the loop lowers it. *)
Theorem speed_cap (g : Game) :
  reachable g ->
  5 * SPEED = 100 /\
  SPEED <= Snake.speed (snake g) <= 5 * SPEED /\
  (forall n,
      Snake.speed (snake g) <= Snake.speed (Nat.iter n grow (snake g))
      <= 5 * SPEED) /\
  Snake.speed (grow (snake g)) =
    (if Snake.speed (snake g) =? 5 * SPEED then Snake.speed (snake g)
     else Snake.speed (snake g) + 1) /\
  (forall events tape g',
      tick events tape g = Return g' ->
      Snake.speed (snake g) <= Snake.speed (snake g') <= 5 * SPEED).
Proof.
  intros R. pose proof (inv_speed _ (reachable_inv g R)) as V.
  change (5 * SPEED) with 100.
  split; [reflexivity|]. split; [assumption|].
  split; [intros n; apply iter_grow_speed; lia|].
  split.
  - rewrite grow_speed. destruct (Z.eqb_spec (Snake.speed (snake g)) 100); lia.
  - intros events tape g' T.
    destruct (tick_speed events tape g g' T) as [E | E]; rewrite E.
    + lia.
    + rewrite grow_speed. lia.
Qed.

Lemma speed_cap_witness :
  Snake.speed (Nat.iter 200 grow (snake before_crash)) <= 100.
Proof.
  destruct (speed_cap before_crash before_crash_reachable)
    as (E & _ & N & _).
  rewrite <- E. apply (N 200%nat).
Defined.

(** ** The head of the body *)

Lemma head_inv_init : head_inv Snake.init.
Proof. split; simpl; [lia | exists []; reflexivity]. Qed.

Lemma head_inv_handle_keys (events : list Event) (s : Snake.t) :
  head_inv s -> head_inv (fst (handle_keys s events)).
Proof.
  intros [L H].
  destruct (handle_keys_fields events s) as (E1 & E2 & E3 & _).
  simpl in *. split; rewrite ?E1, ?E2, ?E3; assumption.
Qed.

Lemma head_inv_move_insert (s : Snake.t) :
  head_inv s ->
  head_inv (Snake.insert_next_position (Snake.update_direction s) (next_head s)).
Proof.
  intros [L H].
  destruct (update_direction_fields s) as (_ & _ & E & _). simpl in E.
  split; simpl.
  - rewrite E; assumption.
  - eexists; reflexivity.
Qed.

Lemma head_inv_is_game_over (s : Snake.t) (c : Cell) :
  head_inv s -> head_inv (Snake.is_game_over s c).
Proof.
  intros [L H].
  destruct (is_game_over_fields s c) as (E1 & E2 & E3 & _).
  simpl in *. split; rewrite ?E1, ?E2, ?E3; assumption.
Qed.

Lemma head_inv_del_last_segment (s : Snake.t) :
  head_inv s -> head_inv (Snake.del_last_segment s).
Proof.
  intros [L [rest H]].
  destruct (del_last_segment_fields s) as (E1 & E2 & _).
  destruct (del_last_segment_positions s) as [A B]. simpl in *.
  split; [rewrite E2; assumption|]. rewrite E1.
  destruct (Nat.le_gt_cases (List.length (Snake.positions s)) (Snake.length s))
    as [Le | Gt].
  - destruct (B Le) as [E _]. rewrite E. exists rest; assumption.
  - destruct (A Gt) as (c & E & _).
    assert (NE : rest <> []).
    { intros ->. rewrite H in Gt. simpl in Gt. lia. }
    rewrite H in E.
    destruct (cons_eq_snoc _ _ _ _ NE E) as [r' R].
    exists r'; assumption.
Qed.

Lemma head_inv_reset (s : Snake.t) : head_inv (Snake.reset s).
Proof. split; simpl; [lia | exists []; reflexivity]. Qed.

Lemma head_inv_grow (s : Snake.t) : head_inv s -> head_inv (grow s).
Proof. intros [L H]. split; simpl; [lia | assumption]. Qed.

Lemma head_inv_apply_op (s : Snake.t) (o : Op) :
  head_inv s -> head_inv (apply_op s o).
Proof.
  intros I. destruct o; simpl.
  - apply head_inv_handle_keys; assumption.
  - rewrite move_eq. apply head_inv_move_insert; assumption.
  - apply head_inv_is_game_over; assumption.
  - apply head_inv_del_last_segment; assumption.
  - apply head_inv_reset.
  - apply head_inv_grow; assumption.
Qed.

Lemma head_inv_fold (ops : list Op) :
  forall s, head_inv s -> head_inv (fold_left apply_op ops s).
Proof.
  induction ops as [|o ops IH]; intros s I; simpl.
  - assumption.
  - apply IH, head_inv_apply_op, I.
Qed.

(** C10.  After [Snake.__init__] and any sequence of the operations on a
    snake ([handle_keys], [move] followed by [insert_next_position],
    [is_game_over], [del_last_segment], [reset], the block that eats the
    apple), the body is not empty and its first cell is [position]:
    [get_head_position] returns the cell that line 221 compares with the
    apple. *)
Theorem position_is_head (ops : list Op) :
  Snake.get_head_position (run_ops ops)
  = Return (Snake.position (run_ops ops)) /\
  nth_error (Snake.positions (run_ops ops)) 0
  = Some (Snake.position (run_ops ops)) /\
  forall events,
    Snake.get_head_position (step (fst (handle_keys (run_ops ops) events)))
    = Return (Snake.position (step (fst (handle_keys (run_ops ops) events)))).
Proof.
  assert (G : forall s, head_inv s ->
                        Snake.get_head_position s = Return (Snake.position s)).
  { intros s [_ [rest H]]. unfold Snake.get_head_position.
    rewrite H. reflexivity. }
  pose proof (head_inv_fold ops _ head_inv_init) as I.
  fold (run_ops ops) in I.
  split; [apply G; assumption|]. split.
  - destruct I as [_ [rest H]]. rewrite H. reflexivity.
  - intros events. apply G. rewrite step_eq.
    apply head_inv_del_last_segment.
    set (s1 := fst (handle_keys (run_ops ops) events)).
    assert (I1 : head_inv s1) by (apply head_inv_handle_keys; assumption).
    pose proof (head_inv_move_insert s1 I1) as [L H].
    destruct (is_game_over_fields (Snake.update_direction s1) (next_head s1))
      as (_ & E2 & E3 & _).
    simpl in *. split; simpl; rewrite ?E2, ?E3; assumption.
Qed.

(** ** Reset *)

Lemma after_crash_reachable : reachable after_crash.
Proof.
  apply (play_reachable [([KEYDOWN K_UP], []); ([KEYDOWN K_LEFT], [])]
                        before_crash).
  - apply before_crash_reachable.
  - vm_compute. reflexivity.
Qed.

(** C2.  [reset] on the state of [main] after a crash: the body is the
    single cell where the head was, not the centre of the screen where
    [Snake.__init__] puts it, [game_over] is still set and the buffered
    direction is still there; [length], [direction] and [last] are as
    [Snake.__init__] leaves them. *)
Theorem reset_is_not_init :
  reachable after_crash /\
  Snake.positions Snake.init = [(320, 240)] /\
  Snake.positions (Snake.reset (snake after_crash)) = [(380, 240)] /\
  Snake.game_over (Snake.reset (snake after_crash)) = true /\
  Snake.next_direction (Snake.reset (snake after_crash)) = Some LEFT /\
  Snake.length (Snake.reset (snake after_crash)) = 1%nat /\
  Snake.direction (Snake.reset (snake after_crash)) = RIGHT /\
  Snake.last (Snake.reset (snake after_crash)) = None.
Proof.
  split; [apply after_crash_reachable|].
  repeat split.
Qed.

(** ** Food placement *)

Lemma tape_ind (P : list Z -> Prop) :
  P [] -> (forall r, P [r]) ->
  (forall rx ry tape, P tape -> P (rx :: ry :: tape)) ->
  forall tape, P tape.
Proof.
  intros P0 P1 P2.
  assert (H : forall tape, P tape /\ forall r, P (r :: tape)).
  { induction tape as [|r tape [IH1 IH2]].
    - split; [exact P0 | exact P1].
    - split; [apply IH2 | intros r'; apply P2; exact IH1]. }
  intros tape. apply H.
Qed.

Lemma randint_range (a b r : Z) : a <= b -> a <= randint a b r <= b.
Proof.
  intros H. unfold randint.
  pose proof (Z.mod_pos_bound r (b - a + 1)). lia.
Qed.

Lemma randint_small (b r : Z) : 0 <= r <= b -> randint 0 b r = r.
Proof.
  intros H. unfold randint. rewrite Z.sub_0_r, Z.add_0_l.
  apply Z.mod_small. lia.
Qed.

(** The candidate of one turn of the loop is a cell of the grid. *)
Lemma candidate_on_grid (rx ry : Z) :
  on_grid (randint 0 (GRID_WIDTH - 1) rx * GRID_SIZE,
           randint 0 (GRID_HEIGHT - 1) ry * GRID_SIZE).
Proof.
  exists (randint 0 (GRID_WIDTH - 1) rx), (randint 0 (GRID_HEIGHT - 1) ry).
  pose proof (randint_range 0 (GRID_WIDTH - 1) rx ltac:(discriminate)).
  pose proof (randint_range 0 (GRID_HEIGHT - 1) ry ltac:(discriminate)).
  repeat split; lia.
Qed.

Lemma generate_new_position_cons (occupied : list Cell) (rx ry : Z)
      (tape : list Z) :
  Apple.generate_new_position occupied (rx :: ry :: tape) =
  if inb (randint 0 (GRID_WIDTH - 1) rx * GRID_SIZE,
          randint 0 (GRID_HEIGHT - 1) ry * GRID_SIZE) occupied
  then Apple.generate_new_position occupied tape
  else Return (randint 0 (GRID_WIDTH - 1) rx * GRID_SIZE,
               randint 0 (GRID_HEIGHT - 1) ry * GRID_SIZE).
Proof.
  change (Apple.generate_new_position occupied (rx :: ry :: tape)) with
    (if negb (inb (randint 0 (GRID_WIDTH - 1) rx * GRID_SIZE,
                   randint 0 (GRID_HEIGHT - 1) ry * GRID_SIZE) occupied)
     then Return (randint 0 (GRID_WIDTH - 1) rx * GRID_SIZE,
                  randint 0 (GRID_HEIGHT - 1) ry * GRID_SIZE)
     else Apple.generate_new_position occupied tape).
  destruct (inb _ occupied); reflexivity.
Qed.

Lemma all_cells_on_grid (c : Cell) : In c all_cells <-> on_grid c.
Proof.
  unfold all_cells. rewrite in_flat_map. split.
  - intros (y & Hy & Hc). apply in_map_iff in Hc.
    destruct Hc as (x & <- & Hx). apply in_seq in Hx, Hy.
    exists (Z.of_nat x), (Z.of_nat y).
    change GRID_WIDTH with 32 in *. change GRID_HEIGHT with 24 in *.
    repeat split; lia.
  - intros (cx & cy & Hx & Hy & ->).
    exists (Z.to_nat cy). split.
    + apply in_seq. lia.
    + apply in_map_iff. exists (Z.to_nat cx). split.
      * rewrite !Z2Nat.id by lia. reflexivity.
      * apply in_seq. lia.
Qed.

Lemma all_cells_cover : covers_grid all_cells.
Proof. intros c H. apply all_cells_on_grid; assumption. Qed.

Lemma generate_new_position_sound (occupied : list Cell) :
  forall tape c,
    Apple.generate_new_position occupied tape = Return c ->
    on_grid c /\ ~ In c occupied.
Proof.
  induction tape as [| r | rx ry tape IH] using tape_ind; intros c E;
    try discriminate.
  rewrite generate_new_position_cons in E.
  destruct (inb _ occupied) eqn:B.
  - apply IH; assumption.
  - inversion E; subst c. split.
    + apply candidate_on_grid.
    + apply inb_not_In; assumption.
Qed.

Lemma generate_new_position_never_raises (occupied : list Cell) :
  forall tape e, Apple.generate_new_position occupied tape <> Raise e.
Proof.
  induction tape as [| r | rx ry tape IH] using tape_ind; intros e E;
    try discriminate.
  rewrite generate_new_position_cons in E.
  destruct (inb _ occupied); [eapply IH; eassumption|].
  discriminate.
Qed.

Lemma generate_new_position_full (occupied : list Cell) :
  covers_grid occupied ->
  forall tape, Apple.generate_new_position occupied tape = Looping.
Proof.
  intros C.
  induction tape as [| r | rx ry tape IH] using tape_ind; try reflexivity.
  rewrite generate_new_position_cons.
  assert (B : inb (randint 0 (GRID_WIDTH - 1) rx * GRID_SIZE,
                   randint 0 (GRID_HEIGHT - 1) ry * GRID_SIZE) occupied = true)
    by (apply inb_In, C, candidate_on_grid).
  rewrite B. assumption.
Qed.

(** A cell of the grid that is free, when there is one. *)
Lemma free_cell (occupied : list Cell) :
  ~ covers_grid occupied -> exists c, on_grid c /\ ~ In c occupied.
Proof.
  intros N.
  destruct (forallb (fun c => inb c occupied) all_cells) eqn:F.
  - exfalso. apply N. intros c G.
    rewrite forallb_forall in F. apply inb_In, F, all_cells_on_grid, G.
  - assert (X : existsb (fun c => negb (inb c occupied)) all_cells = true).
    { clear N. induction all_cells as [|a l IH]; simpl in *; [discriminate|].
      destruct (inb a occupied); simpl in *; auto. }
    apply existsb_exists in X. destruct X as (c & I & B).
    exists c. split; [apply all_cells_on_grid; assumption|].
    apply inb_not_In. destruct (inb c occupied); [discriminate | reflexivity].
Qed.

(** C3 as the specification states it fails on the full grid: no tape
    makes the placement report a failure. *)
Lemma full_grid_no_failure :
  ~ (covers_grid all_cells ->
     exists tape e, Apple.generate_new_position all_cells tape = Raise e).
Proof.
  intros H. destruct (H all_cells_cover) as (tape & e & E).
  exact (generate_new_position_never_raises all_cells tape e E).
Qed.

(** C3, amended.  When the occupied cells cover the whole grid, the
    placement neither returns a cell nor reports a failure: every
    candidate is rejected, and the loop is still running however many
    random numbers it has read; the iteration of [main] that eats the
    apple on such a grid does not finish either. *)
Theorem full_grid_loops_forever (occupied : list Cell) :
  covers_grid occupied ->
  (forall tape, Apple.generate_new_position occupied tape = Looping) /\
  (forall events tape g,
      let s := fst (handle_keys (snake g) events) in
      Snake.game_over s || Snake.paused s = false ->
      Snake.position (step s) = apple_position g ->
      Snake.positions (step s) = occupied ->
      tick events tape g = Looping).
Proof.
  intros C. split; [apply generate_new_position_full; assumption|].
  intros events tape g s NG A O. unfold tick.
  pose proof (surjective_pairing (handle_keys (snake g) events)) as F.
  fold s in F. rewrite F. cbv beta iota zeta.
  rewrite NG, A, tuple_eqb_refl. simpl negb. cbv iota.
  change (Snake.positions (grow (step s))) with (Snake.positions (step s)).
  rewrite O, (generate_new_position_full occupied C). reflexivity.
Qed.

Lemma full_grid_loops_forever_witness :
  Apple.generate_new_position all_cells [3; 4; 100; -7; 31; 23] = Looping.
Proof.
  apply (full_grid_loops_forever all_cells all_cells_cover).
Defined.

(** C9.  When the occupied cells do not cover the whole grid, every cell
    that the placement returns is a cell of the grid and is not occupied,
    and there are random draws on which the placement does return. *)
Theorem food_disjoint (occupied : list Cell) :
  ~ covers_grid occupied ->
  (forall tape c,
      Apple.generate_new_position occupied tape = Return c ->
      on_grid c /\ ~ In c occupied) /\
  (exists tape c, Apple.generate_new_position occupied tape = Return c).
Proof.
  intros N. split; [apply generate_new_position_sound|].
  destruct (free_cell occupied N) as (c & (cx & cy & Hx & Hy & ->) & F).
  exists [cx; cy], (cell cx cy). rewrite generate_new_position_cons.
  change GRID_WIDTH with 32 in *. change GRID_HEIGHT with 24 in *.
  rewrite !randint_small by lia.
  apply inb_not_In in F. unfold cell in F. rewrite F. reflexivity.
Qed.

Lemma food_disjoint_witness :
  on_grid (340, 240) /\ ~ In (340, 240) (Snake.positions Snake.init).
Proof.
  assert (N : ~ covers_grid (Snake.positions Snake.init)).
  { intros C. specialize (C (cell 0 0)).
    destruct C as [E | []].
    - exists 0, 0. repeat split; discriminate.
    - discriminate. }
  destruct (food_disjoint (Snake.positions Snake.init) N) as [S _].
  apply (S [17; 12]). reflexivity.
Defined.

(** * Further properties of the engine *)

(** ** One iteration of the loop, case by case *)

Lemma tick_cases (events : list Event) (tape : list Z) (g g' : Game) :
  tick events tape g = Return g' ->
  let s1 := fst (handle_keys (snake g) events) in
  running g' = snd (handle_keys (snake g) events) /\
  ((Snake.game_over s1 || Snake.paused s1 = true /\
    snake g' = s1 /\ apple_position g' = apple_position g)
   \/
   (Snake.game_over s1 || Snake.paused s1 = false /\
    Snake.position (step s1) <> apple_position g /\
    snake g' = step s1 /\ apple_position g' = apple_position g)
   \/
   (Snake.game_over s1 || Snake.paused s1 = false /\
    Snake.position (step s1) = apple_position g /\
    snake g' = grow (step s1) /\
    Apple.generate_new_position (Snake.positions (step s1)) tape
    = Return (apple_position g'))).
Proof.
  intros T s1. unfold tick in T.
  pose proof (surjective_pairing (handle_keys (snake g) events)) as F.
  fold s1 in F. rewrite F in T. cbv beta iota zeta in T.
  destruct (Snake.game_over s1 || Snake.paused s1) eqn:B; simpl negb in T;
    cbv iota in T.
  - inversion T; subst; simpl. auto.
  - destruct (tuple_eqb (Snake.position (step s1)) (apple_position g)) eqn:A.
    + apply tuple_eqb_eq in A.
      change (Snake.positions (grow (step s1)))
        with (Snake.positions (step s1)) in T.
      destruct (Apple.generate_new_position (Snake.positions (step s1)) tape)
        as [p| |] eqn:P; inversion T; subst; simpl. auto 10.
    + apply tuple_eqb_neq in A. inversion T; subst; simpl. auto 10.
Qed.

Lemma step_positions_prefix (s : Snake.t) :
  exists tl, next_head s :: Snake.positions s = Snake.positions (step s) ++ tl.
Proof.
  destruct (step_positions s) as [A B].
  destruct (Nat.le_gt_cases (Snake.length s) (List.length (Snake.positions s)))
    as [Le | Gt].
  - destruct (A Le) as (c & E & _). exists [c]; assumption.
  - destruct (B Gt) as (E & _). exists []. rewrite E, app_nil_r. reflexivity.
Qed.

Lemma next_head_shift (s : Snake.t) :
  next_head s
  = shift (Snake.position s) (Snake.direction (Snake.update_direction s)).
Proof. apply next_head_eq. Qed.

(** ** Neighbouring cells *)

Ltac dirs :=
  repeat match goal with
         | H : is_dir _ |- _ => destruct H as [-> | [-> | [-> | ->]]]
         end.

Lemma shift_on_grid (c : Cell) (d : Dir) : on_grid c -> on_grid (shift c d).
Proof.
  intros (cx & cy & _ & _ & ->).
  exists ((cx + fst d) mod GRID_WIDTH), ((cy + snd d) mod GRID_HEIGHT).
  split; [apply Z.mod_pos_bound; reflexivity|].
  split; [apply Z.mod_pos_bound; reflexivity|].
  unfold shift, cell. simpl. rewrite wrap_x, wrap_y. reflexivity.
Qed.

(** A move never stays on its cell. *)
Lemma shift_neq (c : Cell) (d : Dir) :
  on_grid c -> is_dir d -> shift c d <> c.
Proof.
  intros (cx & cy & Hx & Hy & ->) D E.
  unfold shift, cell in E. simpl in E. rewrite wrap_x, wrap_y in E.
  change GRID_WIDTH with 32 in *. change GRID_HEIGHT with 24 in *.
  change GRID_SIZE with 20 in *.
  inversion E as [[Ex Ey]]. clear E.
  dirs; simpl in *; Z.div_mod_to_equations; lia.
Qed.

(** Two moves come back to the starting cell only when the second one is
    the reverse of the first. *)
Lemma shift_shift_neq (b : Cell) (e d : Dir) :
  on_grid b -> is_dir e -> is_dir d -> d <> opposite e ->
  shift (shift b e) d <> b.
Proof.
  intros (cx & cy & Hx & Hy & ->) De Dd N E.
  unfold shift, cell in E. simpl in E.
  rewrite wrap_x, wrap_y, wrap_x, wrap_y in E.
  change GRID_WIDTH with 32 in *. change GRID_HEIGHT with 24 in *.
  change GRID_SIZE with 20 in *.
  inversion E as [[Ex Ey]]. clear E.
  dirs; simpl in *; try (exfalso; apply N; reflexivity);
    Z.div_mod_to_equations; lia.
Qed.

Lemma chain_app_l (l r : list Cell) : chain (l ++ r) -> chain l.
Proof.
  induction l as [|a l IH]; intros C; [exact I|].
  destruct l as [|b l]; [exact I|].
  simpl in C. destruct C as [N C]. split; [assumption|].
  apply IH. exact C.
Qed.

(** ** The body through a step *)

Lemma step_body (s : Snake.t) :
  snake_inv s ->
  Forall on_grid (Snake.positions s) ->
  chain (Snake.positions s) ->
  (forall h b rest, Snake.positions s = h :: b :: rest ->
                    h = shift b (Snake.direction s)) ->
  (Snake.game_over s = false -> NoDup (Snake.positions s)) ->
  Forall on_grid (Snake.positions (step s)) /\
  chain (Snake.positions (step s)) /\
  (forall h b rest, Snake.positions (step s) = h :: b :: rest ->
                    h = shift b (Snake.direction (step s))) /\
  (Snake.game_over (step s) = false -> NoDup (Snake.positions (step s))) /\
  (forall c, ~ In c (Snake.positions s) -> c <> next_head s ->
             ~ In c (Snake.positions (step s))) /\
  (Snake.game_over (step s) = false ->
   NoDup (next_head s :: Snake.positions s)).
Proof.
  intros I G C K U.
  pose proof (step_inv s I) as I'.
  destruct (step_positions_prefix s) as [tl E].
  destruct (step_fields s) as (P' & _ & _ & _ & _ & D' & GO).
  destruct (inv_head s I) as [rest0 H].
  destruct (inv_head _ I') as [rest1 H']. rewrite P' in H'.
  pose proof (next_head_shift s) as N. rewrite <- D' in N.
  assert (Gp : on_grid (Snake.position s)).
  { rewrite H in G. inversion G; assumption. }
  assert (Gn : on_grid (next_head s)) by (rewrite N; apply shift_on_grid, Gp).
  assert (Call : chain (next_head s :: Snake.positions s)).
  { rewrite H. split; [|rewrite <- H; assumption].
    exists (Snake.direction (step s)). split; [apply (inv_direction _ I')|].
    exact N. }
  split.
  { assert (F : Forall on_grid (next_head s :: Snake.positions s))
      by (constructor; assumption).
    rewrite E in F. apply Forall_app in F. apply F. }
  split.
  { rewrite E in Call. apply chain_app_l in Call. exact Call. }
  split.
  { intros h b rest Q. rewrite Q in H', E.
    inversion H'; subst h rest1. simpl in E. rewrite H in E.
    inversion E as [[Eb Er]]. exact N. }
  assert (Full : Snake.game_over (step s) = false ->
                 NoDup (next_head s :: Snake.positions s)).
  { intros GF. rewrite GO in GF. apply orb_false_iff in GF.
    destruct GF as [GF NC]. apply inb_not_In in NC.
    { constructor; [|apply U; assumption].
      rewrite H in *. intros [X | X].
      - apply (shift_neq (Snake.position s)
                         (Snake.direction (step s))); auto.
        + apply (inv_direction _ I').
        + rewrite <- N. symmetry; assumption.
      - destruct rest0 as [|b rest0]; [destruct X|].
        destruct X as [X | X]; [|apply NC; exact X].
        pose proof (K _ _ _ eq_refl) as Kb.
        inversion G as [|? ? _ G2]. inversion G2 as [|? ? Gb _].
        apply (shift_shift_neq b (Snake.direction s) (Snake.direction (step s)));
          auto.
        * apply (inv_direction _ I).
        * apply (inv_direction _ I').
        * apply step_direction_not_reversed; assumption.
        * rewrite <- Kb, <- N. symmetry; assumption. } }
  split.
  { intros GF. pose proof (Full GF) as ND.
    rewrite E in ND. apply NoDup_app_remove_r in ND. exact ND. }
  split; [|exact Full].
  intros c NI NE X.
  assert (Y : In c (next_head s :: Snake.positions s))
    by (rewrite E; apply in_or_app; left; exact X).
  destruct Y as [Y | Y]; [apply NE; symmetry; exact Y | apply NI; exact Y].
Qed.

Lemma start_game_inv (tape : list Z) (g : Game) :
  start tape = Return g -> game_inv g.
Proof.
  unfold start. intros S.
  destruct (Apple.generate_new_position (Snake.positions Snake.init) tape)
    as [p| |] eqn:A; inversion S; subst g. clear S.
  constructor; simpl.
  - apply snake_inv_init.
  - constructor; [|constructor]. exists 16, 12. repeat split; discriminate.
  - exact I.
  - intros h b rest E; discriminate.
  - intros _. constructor; [intros []|constructor].
  - exact (generate_new_position_sound _ tape p A).
  - reflexivity.
Qed.

Lemma tick_game_inv (events : list Event) (tape : list Z) (g g' : Game) :
  game_inv g -> tick events tape g = Return g' -> game_inv g'.
Proof.
  intros [I G C K U [Ga Na] V] T.
  pose proof (tick_inv events tape g g' I T) as I'.
  destruct (tick_cases events tape g g' T) as [_ Cases].
  set (s1 := fst (handle_keys (snake g) events)) in *.
  destruct (handle_keys_fields events (snake g))
    as (F1 & F2 & F3 & F4 & F5 & _ & F7).
  fold s1 in F1, F2, F3, F4, F5, F7.
  pose proof (handle_keys_inv events _ I) as I1. fold s1 in I1.
  assert (G1 : Forall on_grid (Snake.positions s1)) by (rewrite F2; exact G).
  assert (C1 : chain (Snake.positions s1)) by (rewrite F2; exact C).
  assert (K1 : forall h b rest, Snake.positions s1 = h :: b :: rest ->
                                h = shift b (Snake.direction s1))
    by (rewrite F2, F7; exact K).
  assert (U1 : Snake.game_over s1 = false -> NoDup (Snake.positions s1))
    by (rewrite F2, F5; exact U).
  destruct (step_body s1 I1 G1 C1 K1 U1) as (G2 & C2 & K2 & U2 & A2 & _).
  destruct (step_fields s1) as (P2 & L2 & V2 & _).
  destruct Cases as [(B & S & A) | [(B & NA & S & A) | (B & EA & S & A)]].
  - rewrite S in I'. constructor; rewrite ?S, ?A; try assumption.
    + split; [assumption|]. rewrite F2; assumption.
    + rewrite F3, F4. assumption.
  - rewrite S in I'. constructor; rewrite ?S, ?A; try assumption.
    + split; [assumption|]. apply A2.
      * rewrite F2; assumption.
      * rewrite <- P2. congruence.
    + rewrite L2, V2, F3, F4. assumption.
  - apply generate_new_position_sound in A. rewrite S in I'.
    constructor; rewrite ?S; try assumption.
    rewrite grow_speed. simpl Snake.length. rewrite L2, V2, F3, F4, V.
    unfold SPEED. lia.
Qed.

Lemma reachable_game_inv (g : Game) : reachable g -> game_inv g.
Proof.
  induction 1 as [tape g S | events tape g g' R IH Run T].
  - eapply start_game_inv; eassumption.
  - eapply tick_game_inv; eassumption.
Qed.

(** ** Invariants of the game *)

Lemma chain_nth (l : list Cell) :
  chain l ->
  forall i a b,
    nth_error l i = Some a -> nth_error l (S i) = Some b ->
    exists d, is_dir d /\ a = shift b d.
Proof.
  induction l as [|x l IH]; intros C i a b A B.
  - destruct i; discriminate.
  - destruct l as [|y l]; [destruct i; discriminate|].
    destruct C as [N C]. destruct i as [|i].
    + simpl in A, B. inversion A; inversion B; subst. exact N.
    + apply (IH C i); assumption.
Qed.

(** X1.  In every state of [main] the cells of the body are cells of the
    grid, and each one is one step, in one of the four directions and
    around the edges, from the cell that follows it in the body. *)
Theorem body_cells_adjacent (g : Game) :
  reachable g ->
  Forall on_grid (Snake.positions (snake g)) /\
  forall i a b,
    nth_error (Snake.positions (snake g)) i = Some a ->
    nth_error (Snake.positions (snake g)) (S i) = Some b ->
    exists d, is_dir d /\ a = shift b d.
Proof.
  intros R. destruct (reachable_game_inv g R) as [_ G C _ _ _ _].
  split; [exact G | apply chain_nth; exact C].
Qed.

Lemma body_cells_adjacent_witness :
  exists d, is_dir d /\ (400, 260) = shift (400, 240) d.
Proof.
  destruct (body_cells_adjacent before_crash before_crash_reachable)
    as [_ A].
  apply (A 1%nat); reflexivity.
Defined.

(** X2.  As long as the game is not over, no cell occurs twice in the
    body of the snake of [main]. *)
Theorem body_without_duplicates (g : Game) :
  reachable g -> Snake.game_over (snake g) = false ->
  NoDup (Snake.positions (snake g)).
Proof.
  intros R. apply (ginv_nodup g (reachable_game_inv g R)).
Qed.

Lemma body_without_duplicates_witness :
  NoDup [(380, 260); (400, 260); (400, 240); (380, 240); (360, 240)].
Proof.
  apply (body_without_duplicates before_crash before_crash_reachable eq_refl).
Defined.

(** X3.  At the head of the loop of [main] the apple is on a cell of the
    grid that is not a cell of the snake. *)
Theorem apple_off_snake (g : Game) :
  reachable g ->
  on_grid (apple_position g) /\
  ~ In (apple_position g) (Snake.positions (snake g)).
Proof.
  intros R. apply (ginv_apple g (reachable_game_inv g R)).
Qed.

Lemma apple_off_snake_witness :
  ~ In (0, 0) [(380, 260); (400, 260); (400, 240); (380, 240); (360, 240)].
Proof.
  apply (apple_off_snake before_crash before_crash_reachable).
Defined.

(** X4.  In every state of [main] the speed is the base speed plus the
    number of apples eaten, [length - 1], capped at 100. *)
Theorem speed_follows_length (g : Game) :
  reachable g ->
  Snake.speed (snake g)
  = Z.min 100 (SPEED + Z.of_nat (Snake.length (snake g)) - 1).
Proof.
  intros R. apply (ginv_speed g (reachable_game_inv g R)).
Qed.

Lemma speed_follows_length_witness :
  Snake.speed (snake before_crash) = Z.min 100 (SPEED + 5 - 1).
Proof.
  apply (speed_follows_length before_crash before_crash_reachable).
Defined.

(** X5.  In [main] the body has [length] cells, or one less when an apple
    has just been eaten; over one iteration of the loop neither [length]
    nor the number of cells of the body decreases, and each grows by at
    most 1. *)
Theorem length_never_decreases (g g' : Game) (events : list Event)
        (tape : list Z) :
  reachable g -> tick events tape g = Return g' ->
  (Snake.get_length (snake g) <= Snake.length (snake g)
   <= S (Snake.get_length (snake g)))%nat /\
  (Snake.length (snake g) <= Snake.length (snake g')
   <= S (Snake.length (snake g)))%nat /\
  (Snake.get_length (snake g) <= Snake.get_length (snake g')
   <= S (Snake.get_length (snake g)))%nat.
Proof.
  intros R T. pose proof (reachable_inv g R) as I.
  pose proof (inv_live _ I) as V.
  destruct (tick_cases events tape g g' T) as [_ Cases].
  set (s1 := fst (handle_keys (snake g) events)) in *.
  destruct (handle_keys_fields events (snake g)) as (_ & F2 & F3 & _).
  fold s1 in F2, F3.
  assert (V1 : (List.length (Snake.positions s1) <= Snake.length s1
                <= S (List.length (Snake.positions s1)))%nat)
    by (rewrite F2, F3; exact V).
  pose proof (step_live_length s1 V1) as Len.
  destruct (step_fields s1) as (_ & L2 & _).
  unfold Snake.get_length in *.
  split; [exact V|].
  destruct Cases as [(_ & S & _) | [(_ & _ & S & _) | (_ & _ & S & _)]];
    rewrite S; simpl Snake.length; simpl Snake.positions;
    rewrite ?Len, ?L2, ?F2, ?F3; lia.
Qed.

Lemma length_never_decreases_witness :
  (Snake.length (snake before_crash) <= Snake.length (snake after_crash))%nat.
Proof.
  assert (T : exists g1,
             tick [KEYDOWN K_UP] [] before_crash = Return g1 /\
             tick [KEYDOWN K_LEFT] [] g1 = Return after_crash).
  { eexists. split; vm_compute; reflexivity. }
  destruct T as (g1 & T1 & T2).
  pose proof (reachable_tick _ _ _ _ before_crash_reachable eq_refl T1) as R1.
  destruct (length_never_decreases _ _ _ _ before_crash_reachable T1)
    as (_ & [A _] & _).
  destruct (length_never_decreases _ _ _ _ R1 T2) as (_ & [B _] & _).
  exact (Nat.le_trans _ _ _ A B).
Defined.

(** ** After the crash *)

Lemma tick_game_over (events : list Event) (tape : list Z) (g : Game) :
  Snake.game_over (snake g) = true ->
  exists g',
    tick events tape g = Return g' /\
    snake g' = fst (handle_keys (snake g) events) /\
    apple_position g' = apple_position g.
Proof.
  intros GO. unfold tick.
  destruct (handle_keys_fields events (snake g)) as (_ & _ & _ & _ & F5 & _).
  destruct (handle_keys (snake g) events) as [s1 run]. simpl in F5.
  rewrite F5, GO. simpl. eexists. split; [reflexivity|]. simpl. auto.
Qed.

(** X6.  Once [game_over] is set, whatever frames follow, [main] goes on
    without ever reading the random numbers and without changing the
    body, the position, [length], the speed, the committed direction,
    the flag or the apple. *)
Theorem game_over_is_final (frames : list (list Event * list Z)) :
  forall g,
    Snake.game_over (snake g) = true ->
    exists g',
      play frames g = Return g' /\
      Snake.game_over (snake g') = true /\
      Snake.positions (snake g') = Snake.positions (snake g) /\
      Snake.position (snake g') = Snake.position (snake g) /\
      Snake.length (snake g') = Snake.length (snake g) /\
      Snake.speed (snake g') = Snake.speed (snake g) /\
      Snake.direction (snake g') = Snake.direction (snake g) /\
      apple_position g' = apple_position g.
Proof.
  induction frames as [|[events tape] rest IH]; intros g GO; simpl.
  - exists g. auto 10.
  - destruct (running g); [|exists g; auto 10].
    destruct (tick_game_over events tape g GO) as (g1 & T & S & A).
    rewrite T.
    destruct (handle_keys_fields events (snake g))
      as (F1 & F2 & F3 & F4 & F5 & _ & F7).
    rewrite <- S in F1, F2, F3, F4, F5, F7.
    destruct (IH g1) as (g' & P & E0 & E1 & E2 & E3 & E4 & E5 & E6);
      [congruence|].
    exists g'. split; [exact P|].
    repeat split; congruence.
Qed.

Lemma game_over_is_final_witness :
  exists g',
    play [([KEYDOWN K_RIGHT], []); ([KEYDOWN K_SPACE; KEYDOWN K_DOWN], [])]
         after_crash = Return g' /\
    Snake.positions (snake g') = Snake.positions (snake after_crash).
Proof.
  destruct (game_over_is_final
              [([KEYDOWN K_RIGHT], []); ([KEYDOWN K_SPACE; KEYDOWN K_DOWN], [])]
              after_crash eq_refl) as (g' & P & _ & E & _).
  exists g'. split; assumption.
Defined.

(** ** Batches of events *)

Lemma handle_keys_no_quit (events : list Event) :
  forall s, ~ In QUIT events -> snd (handle_keys s events) = true.
Proof.
  induction events as [|e rest IH]; intros s N; simpl.
  - reflexivity.
  - destruct e; simpl in N.
    + exfalso. apply N. left; reflexivity.
    + apply IH. intros X. apply N. right; exact X.
    + apply IH. intros X. apply N. right; exact X.
Qed.

Lemma handle_keys_append (events1 events2 : list Event) :
  forall s,
    ~ In QUIT events1 ->
    handle_keys s (events1 ++ events2)
    = handle_keys (fst (handle_keys s events1)) events2.
Proof.
  induction events1 as [|e rest IH]; intros s N; simpl.
  - reflexivity.
  - destruct e; simpl in N.
    + exfalso. apply N. left; reflexivity.
    + apply IH. intros X. apply N. right; exact X.
    + apply IH. intros X. apply N. right; exact X.
Qed.

(** X7.  Reading a batch of events that holds no [QUIT] and then a second
    batch is the same as reading the two batches as one. *)
Theorem handle_keys_app (s : Snake.t) (events1 events2 : list Event) :
  ~ In QUIT events1 ->
  handle_keys s (events1 ++ events2)
  = handle_keys (fst (handle_keys s events1)) events2.
Proof. apply handle_keys_append. Qed.

Lemma handle_keys_app_witness :
  handle_keys Snake.init ([KEYDOWN K_UP; other_event] ++ [KEYDOWN K_SPACE])
  = handle_keys (fst (handle_keys Snake.init [KEYDOWN K_UP; other_event]))
                [KEYDOWN K_SPACE].
Proof.
  apply handle_keys_app.
  intros [X | [X | []]]; discriminate.
Defined.

(** X8.  [handle_keys] answers [True] exactly when the batch holds no
    [QUIT]; at the first [QUIT] it answers [False] and the events behind
    it have no effect on the snake. *)
Theorem handle_keys_quit (s : Snake.t) (events1 events2 : list Event) :
  (snd (handle_keys s events1) = true <-> ~ In QUIT events1) /\
  (~ In QUIT events1 ->
   handle_keys s (events1 ++ QUIT :: events2)
   = (fst (handle_keys s events1), false)).
Proof.
  split; [split|].
  - revert s. induction events1 as [|e rest IH]; intros s H X.
    + destruct X.
    + destruct e; simpl in H.
      * discriminate.
      * destruct X as [X | X]; [discriminate | exact (IH _ H X)].
      * destruct X as [X | X]; [discriminate | exact (IH _ H X)].
  - apply handle_keys_no_quit.
  - intros N. rewrite (handle_keys_append events1 _ s N). reflexivity.
Qed.

Lemma handle_keys_quit_witness :
  handle_keys Snake.init ([KEYDOWN K_DOWN] ++ QUIT :: [KEYDOWN K_UP])
  = (fst (handle_keys Snake.init [KEYDOWN K_DOWN]), false).
Proof.
  destruct (handle_keys_quit Snake.init [KEYDOWN K_DOWN] [KEYDOWN K_UP])
    as [_ Q].
  apply Q. intros [X | []]; discriminate.
Defined.

Lemma handle_keydown_paused (s : Snake.t) (key : Key) :
  Snake.paused (handle_keydown s key)
  = match key with
    | K_SPACE => negb (Snake.paused s)
    | _ => Snake.paused s
    end.
Proof.
  unfold handle_keydown.
  destruct key; simpl;
    try destruct (turn_allowed (Snake.direction s) _); reflexivity.
Qed.

Lemma handle_keys_keeps_buffer (events : list Event) :
  forall s,
    Forall (keeps_buffer (Snake.direction s)) events ->
    Snake.next_direction (fst (handle_keys s events)) = Snake.next_direction s.
Proof.
  induction events as [|e rest IH]; intros s F; simpl.
  - reflexivity.
  - inversion F as [|? ? Ke Kr]; subst.
    destruct e as [|key|]; simpl; [reflexivity| |apply IH; exact Kr].
    destruct (handle_keydown_fields s key)
      as (_ & _ & _ & _ & _ & _ & D & N).
    simpl in D, N, Ke. rewrite IH by (rewrite D; exact Kr).
    rewrite N. destruct (direction_mapping key) as [d|]; [|reflexivity].
    rewrite Ke. reflexivity.
Qed.

(** X9.  Of the requests of a batch, the last one that is accepted is the
    one buffered: an arrow key that is not the reverse of the committed
    direction overwrites whatever was buffered before it, and stays
    buffered when the events behind it are refused arrow keys, other keys,
    [K_SPACE], events that are not key presses, or [QUIT]. *)
Theorem last_accepted_request_wins (s : Snake.t) (events rest : list Event)
        (key : Key) (d : Dir) :
  ~ In QUIT events ->
  direction_mapping key = Some d ->
  turn_allowed (Snake.direction s) d = true ->
  Forall (keeps_buffer (Snake.direction s)) rest ->
  Snake.next_direction
    (fst (handle_keys s (events ++ KEYDOWN key :: rest))) = Some d.
Proof.
  intros N M T F.
  rewrite (handle_keys_append events _ s N). simpl.
  destruct (handle_keys_fields events s) as (_ & _ & _ & _ & _ & _ & D).
  set (s1 := fst (handle_keys s events)) in *.
  destruct (handle_keydown_fields s1 key)
    as (_ & _ & _ & _ & _ & _ & D1 & N1).
  simpl in D1, N1. rewrite M, D, T in N1.
  rewrite handle_keys_keeps_buffer by (rewrite D1, D; exact F).
  exact N1.
Qed.

Lemma last_accepted_request_wins_witness :
  Snake.next_direction
    (fst (handle_keys Snake.init
            ([KEYDOWN K_UP]
             ++ KEYDOWN K_DOWN :: [KEYDOWN K_LEFT; KEYDOWN K_SPACE])))
  = Some DOWN.
Proof.
  apply last_accepted_request_wins.
  - intros [X | []]; discriminate.
  - reflexivity.
  - reflexivity.
  - repeat constructor.
Defined.

(** X10.  After a batch with no [QUIT] the snake is paused when it was
    paused before and [K_SPACE] was pressed an even number of times, or
    was not paused and [K_SPACE] was pressed an odd number of times. *)
Theorem pause_toggles (s : Snake.t) (events : list Event) :
  ~ In QUIT events ->
  Snake.paused (fst (handle_keys s events))
  = xorb (Snake.paused s) (Nat.odd (spaces events)).
Proof.
  revert s. induction events as [|e rest IH]; intros s N.
  - simpl. rewrite xorb_false_r. reflexivity.
  - assert (Nr : ~ In QUIT rest) by (intros X; apply N; right; exact X).
    destruct e as [|key|].
    + exfalso. apply N. left; reflexivity.
    + simpl handle_keys. rewrite (IH _ Nr), handle_keydown_paused.
      destruct key; try reflexivity.
      change (spaces (KEYDOWN K_SPACE :: rest)) with (S (spaces rest)).
      rewrite Nat.odd_succ, <- Nat.negb_odd.
      destruct (Snake.paused s), (Nat.odd (spaces rest)); reflexivity.
    + simpl handle_keys. apply (IH _ Nr).
Qed.

Lemma pause_toggles_witness :
  Snake.paused
    (fst (handle_keys Snake.init
            [KEYDOWN K_SPACE; KEYDOWN K_UP; KEYDOWN K_SPACE; KEYDOWN K_SPACE]))
  = true.
Proof.
  apply (pause_toggles Snake.init).
  intros [X | [X | [X | [X | []]]]]; discriminate.
Defined.

(** ** The placement loop *)

Lemma candidates_app (tape more : list Z) :
  exists tl, candidates (tape ++ more) = candidates tape ++ tl.
Proof.
  induction tape as [| r | rx ry tape [tl IH]] using tape_ind.
  - exists (candidates more). reflexivity.
  - exists (candidates (r :: more)). reflexivity.
  - exists tl. simpl app. simpl candidates. rewrite IH. reflexivity.
Qed.

Lemma find_app_some (f : Cell -> bool) (l tl : list Cell) (c : Cell) :
  find f l = Some c -> find f (l ++ tl) = Some c.
Proof.
  induction l as [|a l IH]; simpl; [discriminate|].
  destruct (f a); auto.
Qed.

Lemma generate_new_position_find (occupied : list Cell) (tape : list Z) :
  Apple.generate_new_position occupied tape
  = match find (fun c => negb (inb c occupied)) (candidates tape) with
    | Some c => Return c
    | None => Looping
    end.
Proof.
  induction tape as [| r | rx ry tape IH] using tape_ind; try reflexivity.
  rewrite generate_new_position_cons. simpl candidates. simpl find.
  destruct (inb _ occupied); simpl; [exact IH | reflexivity].
Qed.

(** X11.  [generate_new_position] returns the first of the cells it draws
    that is not on the snake, and is still in its loop when all the cells
    drawn so far are on the snake; the draws behind the first free cell
    are not read. *)
Theorem generate_new_position_first_free (occupied : list Cell)
        (tape : list Z) :
  Apple.generate_new_position occupied tape
  = match find (fun c => negb (inb c occupied)) (candidates tape) with
    | Some c => Return c
    | None => Looping
    end /\
  forall c more,
    Apple.generate_new_position occupied tape = Return c ->
    Apple.generate_new_position occupied (tape ++ more) = Return c.
Proof.
  split; [apply generate_new_position_find|].
  intros c more E. rewrite generate_new_position_find in *.
  destruct (candidates_app tape more) as [tl ->].
  destruct (find _ (candidates tape)) as [c'|] eqn:F; [|discriminate].
  rewrite (find_app_some _ _ tl c' F). exact E.
Qed.

(** ** The step, seen from the body *)

(** X12.  A step of a snake whose body is not shorter than [length] moves
    the body without changing its size: the new body is the next head
    followed by the old body without its last cell, and that cell is kept
    in [last]. *)
Theorem step_moves_body (s : Snake.t) (l : list Cell) (t : Cell) :
  (Snake.length s <= List.length (Snake.positions s))%nat ->
  Snake.positions s = l ++ [t] ->
  Snake.positions (step s) = next_head s :: l /\
  Snake.position (step s) = next_head s /\
  Snake.last (step s) = Some t /\
  Snake.get_length (step s) = Snake.get_length s.
Proof.
  intros Le P.
  destruct (step_positions s) as [A _].
  destruct (A Le) as (c & E & La).
  rewrite P in E. change (next_head s :: l ++ [t])
    with ((next_head s :: l) ++ [t]) in E.
  apply app_inj_tail in E. destruct E as [E1 E2]. subst c.
  split; [symmetry; exact E1|].
  split; [apply step_fields|].
  split; [exact La|].
  unfold Snake.get_length. rewrite <- E1, P, length_app. simpl. lia.
Qed.

Lemma step_moves_body_witness :
  Snake.positions (step (snake before_crash))
  = [(360, 260); (380, 260); (400, 260); (400, 240); (380, 240)] /\
  Snake.last (step (snake before_crash)) = Some (360, 240).
Proof.
  destruct (step_moves_body
              (snake before_crash)
              [(380, 260); (400, 260); (400, 240); (380, 240)] (360, 240))
    as (P & _ & L & _).
  - simpl. lia.
  - reflexivity.
  - split; [exact P | exact L].
Defined.

(** X13.  In [main], when a step that removes the last cell of the body
    leaves the game running, the removed cell, kept in [last], is no
    longer a cell of the body. *)
Theorem removed_tail_is_free (g : Game) (events : list Event) :
  reachable g ->
  let s1 := fst (handle_keys (snake g) events) in
  (Snake.length s1 <= List.length (Snake.positions s1))%nat ->
  Snake.game_over (step s1) = false ->
  exists t,
    Snake.last (step s1) = Some t /\ ~ In t (Snake.positions (step s1)).
Proof.
  intros R s1 Le GO.
  destruct (reachable_game_inv g R) as [I G C K U _ _].
  destruct (handle_keys_fields events (snake g))
    as (_ & F2 & _ & _ & F5 & _ & F7).
  fold s1 in F2, F5, F7.
  pose proof (handle_keys_inv events _ I) as I1. fold s1 in I1.
  rewrite <- F2 in G, C, K, U. rewrite <- F7 in K. rewrite <- F5 in U.
  destruct (step_body s1 I1 G C K U) as (_ & _ & _ & _ & _ & Full).
  destruct (step_positions s1) as [A _].
  destruct (A Le) as (t & E & La).
  exists t. split; [exact La|].
  pose proof (Full GO) as ND. rewrite E in ND.
  apply NoDup_remove_2 in ND. rewrite app_nil_r in ND. exact ND.
Qed.

Lemma removed_tail_is_free_witness :
  exists t,
    Snake.last (step (snake before_crash)) = Some t /\
    ~ In t (Snake.positions (step (snake before_crash))).
Proof.
  apply (removed_tail_is_free before_crash [] before_crash_reachable).
  - simpl. lia.
  - reflexivity.
Defined.

(** X14.  Over one iteration of the loop of [main], either the apple
    stays where it is and [length] is unchanged, or the head has reached
    the apple: then [length] grows by 1 and the apple moves to a
    different cell, one that is not under the snake. *)
Theorem eaten_apple_moves (g g' : Game) (events : list Event)
        (tape : list Z) :
  reachable g -> tick events tape g = Return g' ->
  (apple_position g' = apple_position g /\
   Snake.length (snake g') = Snake.length (snake g))
  \/
  (Snake.position (snake g') = apple_position g /\
   apple_position g' <> apple_position g /\
   ~ In (apple_position g') (Snake.positions (snake g')) /\
   Snake.length (snake g') = S (Snake.length (snake g))).
Proof.
  intros R T.
  destruct (tick_cases events tape g g' T) as [_ Cases].
  set (s1 := fst (handle_keys (snake g) events)) in *.
  destruct (handle_keys_fields events (snake g)) as (_ & _ & F3 & _).
  fold s1 in F3.
  destruct (step_fields s1) as (_ & L2 & _).
  destruct Cases as [(_ & S & A) | [(_ & _ & S & A) | (_ & EA & S & A)]].
  - left. rewrite S, A. auto.
  - left. rewrite S, A, L2. auto.
  - right. apply generate_new_position_sound in A. destruct A as [_ A].
    assert (I' : snake_inv (snake g')).
    { eapply tick_inv; [apply reachable_inv; exact R | exact T]. }
    destruct (inv_head _ I') as [rest H].
    rewrite S in *. simpl Snake.position in *. simpl Snake.positions in *.
    simpl Snake.length. rewrite L2, F3.
    split; [exact EA|]. split; [|split; [exact A | reflexivity]].
    intros X. apply A. rewrite H, X, <- EA. left; reflexivity.
Qed.

Lemma eaten_apple_moves_witness :
  exists g1,
    tick [] [18; 12] first_game = Return g1 /\
    Snake.length (snake g1) = 2%nat /\
    apple_position g1 <> (340, 240).
Proof.
  assert (R : reachable first_game)
    by (apply (reachable_start [17; 12]); reflexivity).
  eexists. split; [vm_compute; reflexivity|].
  destruct (eaten_apple_moves first_game _ [] [18; 12] R eq_refl)
    as [[A _] | (_ & N & _ & L)].
  - discriminate A.
  - split; [exact L | exact N].
Defined.

(** ** Reset and the buffered direction *)

(** X15.  [reset] sets the direction to [RIGHT] but leaves the buffered
    direction in place, so a buffered [LEFT], accepted before the reset,
    is committed by the next step: the snake turns straight back, which
    [handle_keys] never lets it do. *)
Theorem reset_lets_reverse (s : Snake.t) :
  Snake.next_direction s = Some LEFT ->
  turn_allowed (Snake.direction (Snake.reset s)) LEFT = false /\
  Snake.direction (step (Snake.reset s))
  = opposite (Snake.direction (Snake.reset s)).
Proof.
  intros N. split; [reflexivity|].
  destruct (step_fields (Snake.reset s)) as (_ & _ & _ & _ & _ & D & _).
  destruct (update_direction_fields (Snake.reset s))
    as (_ & _ & _ & _ & _ & _ & _ & _ & U).
  simpl in U. rewrite N in U. rewrite D, U. reflexivity.
Qed.

Lemma reset_lets_reverse_witness :
  Snake.direction (step (Snake.reset (snake after_crash))) = LEFT.
Proof.
  destruct (reset_lets_reverse (snake after_crash) eq_refl) as [_ E].
  exact E.
Defined.
